(** * Expert swapper (ktransformers/util/swapper.py): model and properties

    A shallow embedding of the [Swapper] class: an LRU cache of expert
    weights ([OrderedDict]), a table of pending futures, the set of ids
    marked as persisted, and the two collaborators the class talks to
    (the storage directory and the task executor). *)

From Stdlib Require Import ZArith Lia Ascii.
From stdpp Require Import gmap strings list fin_maps sorting.

#[local] Set Warnings "-clear-no-such-hyp".

Local Open Scope string_scope.
Local Open Scope list_scope.
Local Open Scope Z_scope.

(** ** Python dictionaries

    Both [dict] (3.7+) and [OrderedDict] iterate in insertion order, and
    the code depends on it: [popitem(last=False)] takes the first entry,
    [flush] walks [pending_ops] from the first key on. *)

Module Dict.
Section Dict.
Context {V : Type}.

Definition t := list (string * V).

Definition keys (d : t) : list string := d.*1.

(** [d.get(k)] / [d[k]]. *)
Fixpoint get (k : string) (d : t) : option V :=
  match d with
  | [] => None
  | (k', v) :: d' => if String.eqb k k' then Some v else get k d'
  end.

(** [k in d]. *)
Definition mem (k : string) (d : t) : bool :=
  match get k d with Some _ => true | None => false end.

(** [del d[k]]; every call site checks [k in d] first. *)
Fixpoint del (k : string) (d : t) : t :=
  match d with
  | [] => []
  | (k', v) :: d' => if String.eqb k k' then del k d' else (k', v) :: del k d'
  end.

(** [d[k] = v]: an existing key keeps its position, a new key goes last. *)
Fixpoint set (k : string) (v : V) (d : t) : t :=
  match d with
  | [] => [(k, v)]
  | (k', v') :: d' =>
      if String.eqb k k' then (k', v) :: d' else (k', v') :: set k v d'
  end.

(** [OrderedDict.move_to_end(k)]; every call site has [k in d]. *)
Definition move_to_end (k : string) (d : t) : t :=
  match get k d with
  | Some v => del k d ++ [(k, v)]
  | None => d
  end.

(** [OrderedDict.popitem(last=False)]. *)
Definition popitem_first (d : t) : option ((string * V) * t) :=
  match d with
  | [] => None
  | kv :: d' => Some (kv, d')
  end.
End Dict.
Arguments t : clear implicits.
End Dict.

(** ** Data *)

(** A weight tensor is an opaque block of bytes; [.cpu().pin_memory()]
    moves it without changing its content. *)
Definition tensor := list Byte.byte.

Record expert := Expert {
  gate : tensor;
  up : tensor;
  down : tensor;
  metadata : list (string * Z)
}.

(** What a cache slot or a future can hold: the tuple
    [(gate, up, down, metadata)], or the [True] a save task returns. *)
Inductive value :=
| VTuple (e : expert)
| VTrue.

(** The exceptions of the calls.  [IOError] stands for what [torch.save]
    raises when it cannot create the file. *)
Inductive exn :=
  FileNotFoundError | TimeoutError | TypeError | KeyError | IOError.

(** How a call ends: with a value, with an exception, or never. *)
Inductive outcome (A : Type) :=
| Ret (a : A)
| Raise (e : exn)
| Hang.
Arguments Ret {A} a.
Arguments Raise {A} e.
Arguments Hang {A}.

(** Work handed to the executor: the two [_save_task] closures (they
    capture the id and the data) and the [_load_task] closure. *)
Inductive task :=
| SaveTask (expert_id : string) (data : value)
| LoadTask (expert_id : string).

(** Modelled from the spec: what a finished task handle holds, the
    task's value or the error it failed with (section 4.2). *)
Inductive result :=
| Done (v : value)
| Failed (e : exn).

(** Modelled from the spec: the task handle of the executor
    ([cpuinfer_ext] is not among the sources), a unit of work and, once
    it has run, its result. *)
Record future := Future {
  fut_task : task;
  fut_result : option result
}.

(** History of what the cache and the store were asked to do, newest
    first.  It is a ghost variable: no operation reads it. *)
Inductive event :=
| Inserted (expert_id : string)
| Promoted (expert_id : string)
| Evicted (expert_id : string)
| Dropped (expert_id : string)
| StoreIssued (expert_id : string)
| DiskRead (expert_id : string).

(** ** The storage directory

    Every access to the store goes through the path
    [os.path.join(self.storage_dir, f"{expert_id}.pt")].  [names] is the
    file system's reading of that path: the file it denotes for an id,
    or [None] when no file can be created under it (the empty id, an id
    that leads through a subdirectory that does not exist).  Two ids can
    denote the same file ([A] and [./A]).  [files] is the record held by
    each file that exists.  No method of the class creates or removes a
    directory, so [names] stays as it is. *)
Record directory := Directory {
  names : string -> option string;
  files : gmap string expert
}.

(** [os.path.exists(file_path)] and [torch.load(file_path)]: the record
    in the file that the path of [expert_id] denotes. *)
#[global] Instance directory_lookup : Lookup string expert directory :=
  fun expert_id d =>
    match names d expert_id with
    | Some file => files d !! file
    | None => None
    end.

(** Whether [torch.save] can create or overwrite the file of
    [expert_id]. *)
Definition writable (expert_id : string) (d : directory) : bool :=
  match names d expert_id with Some _ => true | None => false end.

(** [torch.save(record, file_path)] where the file can be written. *)
Definition write_file (expert_id : string) (e : expert) (d : directory)
    : directory :=
  match names d expert_id with
  | Some file => Directory (names d) (<[file := e]> (files d))
  | None => d
  end.

(** [os.remove(file_path)] where the file exists. *)
Definition remove_file (expert_id : string) (d : directory) : directory :=
  match names d expert_id with
  | Some file => Directory (names d) (delete file (files d))
  | None => d
  end.

(** The characters a file name can have: no separator, no NUL. *)
Fixpoint file_name_chars (k : string) : bool :=
  match k with
  | EmptyString => true
  | String a k' =>
      negb (Ascii.eqb a "/"%char) && negb (Ascii.eqb a "000"%char)
      && file_name_chars k'
  end.

(** A storage directory without subdirectories, on a file system that
    tells names apart character by character: an id that is a file name
    (not empty, no separator, [<id>.pt] within 255 bytes) has a file of
    its own, a leading [./] changes nothing, and any other id with a
    separator leads through a subdirectory or out of the directory, where
    nothing can be written. *)
Fixpoint flat (k : string) : option string :=
  match k with
  | String "."%char (String "/"%char k') => flat k'
  | _ =>
      if negb (String.eqb k "") && file_name_chars k
         && (String.length k <=? 252)%nat
      then Some k else None
  end.

(** The empty directory is the flat directory without records. *)
#[global] Instance directory_empty : Empty directory := Directory flat ∅.

(** The fields of [Swapper.__init__], then the two collaborators:
    [executor] is the table of the tasks submitted to [cpu_infer], in
    submission order, and [disk] is the storage directory.  [history] is
    the ghost history. *)
Record Swapper := {
  max_memory : Z;
  prefetch_window : Z;
  memory_cache : Dict.t value;
  on_disk : gset string;
  access_pattern : list string;
  pending_ops : Dict.t nat;
  executor : list future;
  disk : directory;
  history : list event
}.

Definition set_memory_cache (c : Dict.t value) (s : Swapper) : Swapper :=
  {| max_memory := max_memory s; prefetch_window := prefetch_window s;
     memory_cache := c; on_disk := on_disk s;
     access_pattern := access_pattern s; pending_ops := pending_ops s;
     executor := executor s; disk := disk s; history := history s |}.

Definition set_on_disk (o : gset string) (s : Swapper) : Swapper :=
  {| max_memory := max_memory s; prefetch_window := prefetch_window s;
     memory_cache := memory_cache s; on_disk := o;
     access_pattern := access_pattern s; pending_ops := pending_ops s;
     executor := executor s; disk := disk s; history := history s |}.

Definition set_access_pattern (a : list string) (s : Swapper) : Swapper :=
  {| max_memory := max_memory s; prefetch_window := prefetch_window s;
     memory_cache := memory_cache s; on_disk := on_disk s;
     access_pattern := a; pending_ops := pending_ops s;
     executor := executor s; disk := disk s; history := history s |}.

Definition set_pending_ops (p : Dict.t nat) (s : Swapper) : Swapper :=
  {| max_memory := max_memory s; prefetch_window := prefetch_window s;
     memory_cache := memory_cache s; on_disk := on_disk s;
     access_pattern := access_pattern s; pending_ops := p;
     executor := executor s; disk := disk s; history := history s |}.

Definition set_executor (x : list future) (s : Swapper) : Swapper :=
  {| max_memory := max_memory s; prefetch_window := prefetch_window s;
     memory_cache := memory_cache s; on_disk := on_disk s;
     access_pattern := access_pattern s; pending_ops := pending_ops s;
     executor := x; disk := disk s; history := history s |}.

Definition set_disk (d : directory) (s : Swapper) : Swapper :=
  {| max_memory := max_memory s; prefetch_window := prefetch_window s;
     memory_cache := memory_cache s; on_disk := on_disk s;
     access_pattern := access_pattern s; pending_ops := pending_ops s;
     executor := executor s; disk := d; history := history s |}.

Definition set_history (h : list event) (s : Swapper) : Swapper :=
  {| max_memory := max_memory s; prefetch_window := prefetch_window s;
     memory_cache := memory_cache s; on_disk := on_disk s;
     access_pattern := access_pattern s; pending_ops := pending_ops s;
     executor := executor s; disk := disk s; history := h |}.

(** [Swapper(storage_dir, max_memory_experts, prefetch_window)] on a
    directory that already holds the records [storage]. *)
Definition init (max_memory_experts prefetch : Z)
    (storage : directory) : Swapper :=
  {| max_memory := max_memory_experts; prefetch_window := prefetch;
     memory_cache := []; on_disk := ∅; access_pattern := [];
     pending_ops := []; executor := []; disk := storage; history := [] |}.

(** ** Methods as state transformers *)

Definition M (A : Type) : Type := Swapper -> outcome A * Swapper.

Definition ret {A} (a : A) : M A := fun s => (Ret a, s).
Definition raise {A} (e : exn) : M A := fun s => (Raise e, s).
Definition bind {A B} (m : M A) (f : A -> M B) : M B :=
  fun s =>
    match m s with
    | (Ret a, s1) => f a s1
    | (Raise e, s1) => (Raise e, s1)
    | (Hang, s1) => (Hang, s1)
    end.
Definition gets {A} (f : Swapper -> A) : M A := fun s => (Ret (f s), s).
Definition modify (f : Swapper -> Swapper) : M unit := fun s => (Ret tt, f s).

Notation "x <- m ;; k" := (bind m (fun x => k))
  (at level 20, m at level 99, k at level 200, only parsing).
Notation "m ;; k" := (bind m (fun _ => k))
  (at level 100, k at level 200, only parsing, right associativity).

Definition emit (e : event) : M unit :=
  modify (fun s => set_history (e :: history s) s).

(** *** The executor *)

(** Modelled from the spec: [cpu_infer.submit(task)] schedules the work
    and never blocks; the handle is the task's index in the table. *)
Definition submit (t : task) : M nat :=
  fun s => (Ret (length (executor s)),
            set_executor (executor s ++ [Future t None]) s).

(** What a worker does with a task (the closures of lines 49-57,
    104-107 and 205-213).  [_save_task] builds the dictionary from
    [data[0..3]] before [torch.save], so saving [True] fails and writes
    nothing; [torch.save] fails where the file cannot be created;
    [torch.load] fails on a missing file. *)
Definition run_task (t : task) (dk : directory) : result * directory :=
  match t with
  | SaveTask expert_id (VTuple e) =>
      if writable expert_id dk
      then (Done VTrue, write_file expert_id e dk)
      else (Failed IOError, dk)
  | SaveTask expert_id VTrue => (Failed TypeError, dk)
  | LoadTask expert_id =>
      match dk !! expert_id with
      | Some e => (Done (VTuple e), dk)
      | None => (Failed FileNotFoundError, dk)
      end
  end.

(** Modelled from the spec: a worker runs a queued task against the
    disk and records the value or the error in its handle. *)
Definition run_future (h : nat) (s : Swapper) : Swapper :=
  match executor s !! h with
  | Some (Future t None) =>
      let '(r, dk) := run_task t (disk s) in
      set_disk dk (set_executor (<[h := Future t (Some r)]> (executor s)) s)
  | _ => s
  end.

(** Modelled from the spec: the default executor is "a single-worker
    pool", so the worker takes the oldest task that has not run yet. *)
Fixpoint first_queued (fs : list future) : option nat :=
  match fs with
  | [] => None
  | Future _ None :: _ => Some 0%nat
  | Future _ (Some _) :: fs' => S <$> first_queued fs'
  end.

(** Modelled from the spec: one task completing in the background. *)
Definition worker_step (s : Swapper) : Swapper :=
  match first_queued (executor s) with
  | Some h => run_future h s
  | None => s
  end.

(** Modelled from the spec: blocking on handle [h]; the single worker
    gets through everything queued up to it, in order. *)
Definition await (h : nat) (s : Swapper) : Swapper :=
  foldl (fun s k => run_future k s) s (seq 0 (S h)).

(** Modelled from the spec: [TaskHandle.done()], a non-blocking poll. *)
Definition is_done (h : nat) (s : Swapper) : bool :=
  match executor s !! h with
  | Some (Future _ (Some _)) => true
  | _ => false
  end.

(** Modelled from the spec: [future.done()] as a step of a method. *)
Definition future_done (h : nat) : M bool := gets (is_done h).

(** Modelled from the spec: [future.result()] blocks until the task is
    done, then returns its value or fails with its error. *)
Definition future_result (h : nat) : M value :=
  fun s =>
    let s1 := if is_done h s then s else await h s in
    match executor s1 !! h with
    | Some (Future _ (Some (Done v))) => (Ret v, s1)
    | Some (Future _ (Some (Failed e))) => (Raise e, s1)
    | _ => (Hang, s1)
    end.

(** *** The cache, with its history *)

(** [self.memory_cache[k] = v]. *)
Definition cache_set (k : string) (v : value) : M unit :=
  cache <- gets memory_cache ;;
  modify (set_memory_cache (Dict.set k v cache)) ;;
  if Dict.mem k cache then ret tt else emit (Inserted k).

(** [self.memory_cache.move_to_end(k)]. *)
Definition cache_move_to_end (k : string) : M unit :=
  cache <- gets memory_cache ;;
  if Dict.mem k cache then
    modify (set_memory_cache (Dict.move_to_end k cache)) ;;
    emit (Promoted k)
  else raise KeyError.

(** [del self.memory_cache[k]]. *)
Definition cache_del (k : string) : M unit :=
  cache <- gets memory_cache ;;
  modify (set_memory_cache (Dict.del k cache)) ;;
  emit (Dropped k).

Definition pending_set (k : string) (h : nat) : M unit :=
  modify (fun s => set_pending_ops (Dict.set k h (pending_ops s)) s).

Definition pending_del (k : string) : M unit :=
  modify (fun s => set_pending_ops (Dict.del k (pending_ops s)) s).

Definition on_disk_add (k : string) : M unit :=
  modify (fun s => set_on_disk ({[k]} ∪ on_disk s) s).

Definition on_disk_discard (k : string) : M unit :=
  modify (fun s => set_on_disk (on_disk s ∖ {[k]}) s).

(** *** [_swap_out_lru] (lines 40-60) *)
Definition _swap_out_lru : M unit :=
  cache <- gets memory_cache ;;
  match Dict.popitem_first cache with
  | None => ret tt
  | Some ((expert_id, data), rest) =>
      modify (set_memory_cache rest) ;;
      emit (Evicted expert_id) ;;
      h <- submit (SaveTask expert_id data) ;;
      emit (StoreIssued expert_id) ;;
      pending_set expert_id h ;;
      on_disk_add expert_id
  end.

(** *** [swap_in] (lines 62-126); [priority] is unused *)

(** Lines 99-100: [while len(cache) >= limit: self._swap_out_lru()].
    [fuel] bounds the iterations; [reserve] gives one more than the
    cache has entries, and running out then means the loop never ends
    (see [reserve_hangs]). *)
Fixpoint reserve_loop (fuel : nat) (limit : Z) : M unit :=
  fun s =>
    if limit <=? Z.of_nat (length (memory_cache s)) then
      match fuel with
      | O => (Hang, s)
      | S fuel' => (_swap_out_lru ;; reserve_loop fuel' limit) s
      end
    else (Ret tt, s).

Definition reserve (limit : Z) : M unit :=
  fun s => reserve_loop (S (length (memory_cache s))) limit s.

(** Lines 89-91. *)
Definition record_access (expert_id : string) : M unit :=
  modify (fun s =>
    let ap := access_pattern s ++ [expert_id] in
    set_access_pattern
      (if 100 <? Z.of_nat (length ap) then drop 1 ap else ap) s).

(** Lines 88-126, after the pending operation has been dealt with. *)
Definition swap_in_fetch (expert_id : string) (background : bool)
    : M (option value) :=
  record_access expert_id ;;
  cache <- gets memory_cache ;;
  if Dict.mem expert_id cache then
    cache_move_to_end expert_id ;;
    if background then ret None else ret (Dict.get expert_id cache)
  else
    limit <- gets (fun s => max_memory s - (if background then 1 else 0)) ;;
    reserve limit ;;
    if background then
      h <- submit (LoadTask expert_id) ;;
      pending_set expert_id h ;;
      ret None
    else
      dk <- gets disk ;;
      match dk !! expert_id with
      | None => raise FileNotFoundError
      | Some e =>
          emit (DiskRead expert_id) ;;
          cache_set expert_id (VTuple e) ;;
          cache_move_to_end expert_id ;;
          on_disk_discard expert_id ;;
          ret (Some (VTuple e))
      end.

Definition swap_in (expert_id : string) (background : bool)
    : M (option value) :=
  pend <- gets pending_ops ;;
  match Dict.get expert_id pend with
  | Some h =>
      finished <- future_done h ;;
      if finished then
        pending_del expert_id ;;
        swap_in_fetch expert_id background
      else if negb background then
        future_result h ;;
        swap_in_fetch expert_id background
      else ret None
  | None => swap_in_fetch expert_id background
  end.

(** *** [swap_out] (lines 128-140); [force] is unused *)
Definition swap_out (expert_id : string) : M unit :=
  cache <- gets memory_cache ;;
  match Dict.get expert_id cache with
  | Some (VTuple e) =>
      dk <- gets disk ;;
      if writable expert_id dk then
        modify (set_disk (write_file expert_id e dk)) ;;
        emit (StoreIssued expert_id) ;;
        cache_del expert_id ;;
        on_disk_add expert_id
      else raise IOError
  | Some VTrue => raise TypeError
  | None => ret tt
  end.

(** *** [get_expert] (lines 142-174) *)

(** [data[:3]]. *)
Definition slice3 (data : value) : M (tensor * tensor * tensor) :=
  match data with
  | VTuple e => ret (gate e, up e, down e)
  | VTrue => raise TypeError
  end.

(** Lines 160-163 and 166-169. *)
Definition take_future (expert_id : string) (h : nat)
    : M (tensor * tensor * tensor) :=
  data <- future_result h ;;
  pending_del expert_id ;;
  cache_set expert_id data ;;
  slice3 data.

(** [timeout] is [None], or [Some w] where [w] is the answer of
    [future.wait(timeout)], the only use the code makes of the number. *)
Definition get_expert (expert_id : string) (timeout : option bool)
    : M (tensor * tensor * tensor) :=
  let fallback :=
    r <- swap_in expert_id false ;;
    match r with
    | Some data => slice3 data
    | None => raise TypeError
    end in
  cache <- gets memory_cache ;;
  if Dict.mem expert_id cache then
    cache_move_to_end expert_id ;;
    match Dict.get expert_id cache with
    | Some data => slice3 data
    | None => raise KeyError
    end
  else
    pend <- gets pending_ops ;;
    match Dict.get expert_id pend with
    | Some h =>
        finished <- future_done h ;;
        if finished then take_future expert_id h
        else
          match timeout with
          | Some true => take_future expert_id h
          | Some false => raise TimeoutError
          | None => fallback
          end
    | None => fallback
    end.

(** *** [register_expert] (lines 176-215) *)
Definition register_expert (expert_id : string) (g u d : tensor)
    (m : list (string * Z)) (persist : bool) : M unit :=
  let e := Expert g u d m in
  cache_set expert_id (VTuple e) ;;
  cache_move_to_end expert_id ;;
  if persist then
    h <- submit (SaveTask expert_id (VTuple e)) ;;
    emit (StoreIssued expert_id) ;;
    pending_set expert_id h ;;
    on_disk_add expert_id
  else ret tt.

(** *** [unregister_expert] (lines 217-224); [os.remove] raises on a
    missing file *)
Definition unregister_expert (expert_id : string) : M unit :=
  cache <- gets memory_cache ;;
  (if Dict.mem expert_id cache then cache_del expert_id else ret tt) ;;
  marked <- gets (fun s => bool_decide (expert_id ∈ on_disk s)) ;;
  if marked then
    dk <- gets disk ;;
    match dk !! expert_id with
    | None => raise FileNotFoundError
    | Some _ =>
        modify (set_disk (remove_file expert_id dk)) ;;
        on_disk_discard expert_id
    end
  else ret tt.

(** *** [flush] (lines 226-233) *)
Definition flush_one (expert_id : string) : M unit :=
  pend <- gets pending_ops ;;
  match Dict.get expert_id pend with
  | Some h =>
      finished <- future_done h ;;
      if finished then pending_del expert_id
      else future_result h ;; pending_del expert_id
  | None => raise KeyError
  end.

Fixpoint flush_keys (ks : list string) : M unit :=
  match ks with
  | [] => ret tt
  | k :: ks' => flush_one k ;; flush_keys ks'
  end.

Definition flush : M unit :=
  pend <- gets pending_ops ;;
  flush_keys (Dict.keys pend).

(** ** Runs *)

Inductive call :=
| SwapIn (expert_id : string) (background : bool)
| SwapOut (expert_id : string)
| GetExpert (expert_id : string) (timeout : option bool)
| RegisterExpert (expert_id : string) (g u d : tensor)
    (m : list (string * Z)) (persist : bool)
| UnregisterExpert (expert_id : string)
| Flush
| WorkerStep.

Definition forget {A} (r : outcome A * Swapper) : outcome unit * Swapper :=
  match r with
  | (Ret _, s) => (Ret tt, s)
  | (Raise e, s) => (Raise e, s)
  | (Hang, s) => (Hang, s)
  end.

Definition exec (c : call) : M unit :=
  fun s =>
    match c with
    | SwapIn k b => forget (swap_in k b s)
    | SwapOut k => swap_out k s
    | GetExpert k t => forget (get_expert k t s)
    | RegisterExpert k g u d m p => register_expert k g u d m p s
    | UnregisterExpert k => unregister_expert k s
    | Flush => flush s
    | WorkerStep => (Ret tt, worker_step s)
    end.

(** The state after a list of calls; a call that hangs ends the run. *)
Fixpoint run (cs : list call) (s : Swapper) : option Swapper :=
  match cs with
  | [] => Some s
  | c :: cs' =>
      match exec c s with
      | (Hang, _) => None
      | (_, s1) => run cs' s1
      end
  end.

(** ** Vocabulary of the properties *)

(** Everything the [Swapper] object itself holds; the worker never
    touches it. *)
Definition book (s : Swapper) :=
  (max_memory s, prefetch_window s, memory_cache s, on_disk s,
   access_pattern s, pending_ops s, history s).

Definition run_all (ks : list nat) (s : Swapper) : Swapper :=
  foldl (fun s k => run_future k s) s ks.

(** The state after [_swap_out_lru] has taken [(k, v)] off the cache. *)
Definition evict (k : string) (v : value) (rest : Dict.t value)
    (s : Swapper) : Swapper :=
  {| max_memory := max_memory s; prefetch_window := prefetch_window s;
     memory_cache := rest; on_disk := {[k]} ∪ on_disk s;
     access_pattern := access_pattern s;
     pending_ops := Dict.set k (length (executor s)) (pending_ops s);
     executor := executor s ++ [Future (SaveTask k v) None];
     disk := disk s;
     history := StoreIssued k :: Evicted k :: history s |}.

(** The events of evicting [out] (oldest first), newest event first. *)
Fixpoint eviction_events (out : Dict.t value) : list event :=
  match out with
  | [] => []
  | (k, _) :: out' => eviction_events out' ++ [StoreIssued k; Evicted k]
  end.

(** What a run of the eviction loop did: [out] lists the entries it
    took, oldest first. *)
Record evicted (out : Dict.t value) (s s' : Swapper) : Prop := {
  ev_cache : memory_cache s = out ++ memory_cache s';
  ev_max : max_memory s' = max_memory s;
  ev_disk : disk s' = disk s;
  ev_access : access_pattern s' = access_pattern s;
  ev_executor :
    executor s' =
      executor s ++ ((fun kv => Future (SaveTask kv.1 kv.2) None) <$> out);
  ev_on_disk : on_disk s' = list_to_set (Dict.keys out) ∪ on_disk s;
  ev_pending : forall k, k ∉ Dict.keys out ->
    Dict.get k (pending_ops s') = Dict.get k (pending_ops s);
  ev_history : history s' = eviction_events out ++ history s
}.

(** The fields [flush] leaves alone. *)
Definition shelf (s : Swapper) :=
  (max_memory s, prefetch_window s, memory_cache s, on_disk s,
   access_pattern s, history s).

(** Lines 89-91. *)
Definition accessed (k : string) (s : Swapper) : Swapper :=
  set_access_pattern
    (if 100 <? Z.of_nat (length (access_pattern s ++ [k]))
     then drop 1 (access_pattern s ++ [k])
     else access_pattern s ++ [k]) s.

(** Lines 95-96. *)
Definition promoted (k : string) (s : Swapper) : Swapper :=
  set_history (Promoted k :: history s)
    (set_memory_cache (Dict.move_to_end k (memory_cache s)) s).

(** Lines 118-124. *)
Definition loaded (k : string) (e : expert) (s : Swapper) : Swapper :=
  {| max_memory := max_memory s; prefetch_window := prefetch_window s;
     memory_cache := memory_cache s ++ [(k, VTuple e)];
     on_disk := on_disk s ∖ {[k]};
     access_pattern := access_pattern s; pending_ops := pending_ops s;
     executor := executor s; disk := disk s;
     history := Promoted k :: Inserted k :: DiskRead k :: history s |}.


(** Lines 109-111. *)
Definition load_submitted (k : string) (s : Swapper) : Swapper :=
  set_pending_ops (Dict.set k (length (executor s)) (pending_ops s))
    (set_executor (executor s ++ [Future (LoadTask k) None]) s).

(** How a call may change the on-disk set, in terms of the events it
    adds to the history. *)
Definition membership_ok (c : call) (s s' : Swapper) : Prop :=
  exists evs, history s' = evs ++ history s
    /\ (forall k, StoreIssued k ∈ evs -> k ∈ on_disk s')
    /\ (forall k, k ∈ on_disk s' -> k ∈ on_disk s \/ StoreIssued k ∈ evs)
    /\ (forall k, StoreIssued k ∈ evs ->
          Evicted k ∈ evs \/ c = SwapOut k
          \/ exists g u d m, c = RegisterExpert k g u d m true)
    /\ (forall k, k ∈ on_disk s -> k ∉ on_disk s' ->
          c = UnregisterExpert k
          \/ DiskRead k ∈ evs
             /\ (c = SwapIn k false \/ exists t, c = GetExpert k t)).

(** Read off the history: when each resident was last inserted or
    promoted (its position in the history), and the residents from the
    least to the most recently touched. *)
Fixpoint stamps (h : list event) : gmap string nat :=
  match h with
  | [] => ∅
  | ev :: h' =>
      match ev with
      | Inserted k | Promoted k => <[k := length h']> (stamps h')
      | Evicted k | Dropped k => delete k (stamps h')
      | _ => stamps h'
      end
  end.

Fixpoint recency (h : list event) : list string :=
  match h with
  | [] => []
  | ev :: h' =>
      match ev with
      | Inserted k | Promoted k => filter (λ x, x ≠ k) (recency h') ++ [k]
      | Evicted k | Dropped k => filter (λ x, x ≠ k) (recency h')
      | _ => recency h'
      end
  end.

(** [x] is resident after [older] and no resident was touched earlier. *)
Definition lru_victim (older : list event) (x : string) : Prop :=
  exists n, stamps older !! x = Some n
    /\ forall y m, stamps older !! y = Some m -> (n <= m)%nat.

Definition before (h : list event) (x y : string) : Prop :=
  exists n m, stamps h !! x = Some n /\ stamps h !! y = Some m /\ (n < m)%nat.

Definition evictions_head (h : list event) : Prop :=
  forall newer x older,
    h = newer ++ Evicted x :: older -> head (recency older) = Some x.

Definition lru_inv (s : Swapper) : Prop :=
  Dict.keys (memory_cache s) = recency (history s)
  /\ evictions_head (history s).

Definition preserves {A} (P : Swapper -> Prop) (m : M A) : Prop :=
  forall s, P s -> P (m s).2.

Module Scenario.

Definition eA : expert := Expert [Byte.x01] [Byte.x02] [Byte.x03] [("layer", 0)].
Definition eB : expert := Expert [Byte.x11] [Byte.x12] [Byte.x13] [("layer", 1)].
Definition eC : expert := Expert [Byte.x21] [Byte.x22] [Byte.x23] [("layer", 2)].

(** A flat storage directory that already holds A, B and C. *)
Definition store : directory :=
  write_file "A" eA (write_file "B" eB (write_file "C" eC ∅)).

Definition residents (s : Swapper) : list string := Dict.keys (memory_cache s).

Definition reads (s : Swapper) : list string :=
  omap (fun ev => match ev with DiskRead k => Some k | _ => None end) (history s).

(** Capacity 2, after [swap_in] of A, B and C: A's write-back is queued. *)
Definition s_evicted : Swapper :=
  (swap_in "C" false
     (swap_in "B" false (swap_in "A" false (init 2 2 store)).2).2).2.

(** A background load of A has been submitted and has not run. *)
Definition s_loading : Swapper := (swap_in "A" true (init 8 2 store)).2.

(** X has just been registered: resident, its save queued. *)
Definition s_registered : Swapper :=
  (register_expert "X" (gate eA) (up eA) (down eA) (metadata eA) true
     (init 8 2 ∅)).2.

(** A, B and C registered and persisted through the Swapper itself:
    registered, swapped out again, pending saves flushed. *)
Definition persist_all : list call :=
  [RegisterExpert "A" (gate eA) (up eA) (down eA) (metadata eA) true;
   RegisterExpert "B" (gate eB) (up eB) (down eB) (metadata eB) true;
   RegisterExpert "C" (gate eC) (up eC) (down eC) (metadata eC) true;
   SwapOut "A"; SwapOut "B"; SwapOut "C"; Flush].

(** X registered, then swapped out. *)
Definition s_swapped_out : Swapper := (swap_out "X" s_registered).2.

End Scenario.

Import Scenario.

(** ** Vocabulary of the further properties *)

(** The cache holds no more than its capacity. *)
Definition within_capacity (s : Swapper) : Prop :=
  Z.of_nat (length (memory_cache s)) <= max_memory s.

(** The calls other than [register_expert] and [get_expert]. *)
Definition makes_room (c : call) : bool :=
  match c with
  | RegisterExpert _ _ _ _ _ _ => false
  | GetExpert _ _ => false
  | _ => true
  end.

(** Lines 90-91 keep the access history at 100 entries. *)
Definition access_bounded (s : Swapper) : Prop :=
  (length (access_pattern s) <= 100)%nat.

(** Running [t] writes the file of [k], in a directory that reads the
    paths as [nm]. *)
Definition writes_to (nm : string -> option string) (k : string)
    (t : task) : Prop :=
  match t with
  | SaveTask k' (VTuple _) => nm k' = nm k
  | _ => False
  end.

(** A load of [k] is the newest task, as future [h]; the record of [k]
    on disk is [e], and no task still queued will overwrite it. *)
Definition load_pending (k : string) (e : expert) (h : nat)
    (s : Swapper) : Prop :=
  length (executor s) = S h
  /\ (executor s !! h = Some (Future (LoadTask k) None)
      \/ executor s !! h = Some (Future (LoadTask k) (Some (Done (VTuple e)))))
  /\ disk s !! k = Some e
  /\ forall j t, j ≠ h -> executor s !! j = Some (Future t None) ->
       ~ writes_to (names (disk s)) k t.

Module Scenario2.

(** A has been registered without [persist] on an empty directory. *)
Definition s_unsaved : Swapper :=
  (register_expert "A" (gate eA) (up eA) (down eA) (metadata eA) false
     (init 2 2 ∅)).2.

(** A and B registered and persisted, their saves done. *)
Definition s_saved : Swapper :=
  worker_step (worker_step
    (register_expert "B" (gate eB) (up eB) (down eB) (metadata eB) true
       (register_expert "A" (gate eA) (up eA) (down eA) (metadata eA) true
          (init 2 2 ∅)).2).2).

(** Capacity 2 with three registered residents X, Y and Z, on a
    directory that holds A, B and C. *)
Definition s_crowded : Swapper :=
  (register_expert "Z" (gate eC) (up eC) (down eC) (metadata eC) false
     (register_expert "Y" (gate eB) (up eB) (down eB) (metadata eB) false
        (register_expert "X" (gate eA) (up eA) (down eA) (metadata eA) false
           (init 2 2 store)).2).2).2.


(** Capacity 2 with A and B loaded, A the older. *)
Definition s_two : Swapper :=
  (swap_in "B" false (swap_in "A" false (init 2 2 store)).2).2.

End Scenario2.

Import Scenario2.

(** * Properties *)

(** ** Dictionaries *)

Module DictFacts.
Section DictFacts.
Context {V : Type}.
Implicit Types (d : Dict.t V) (k : string) (v : V).

Lemma get_None d k : Dict.get k d = None <-> k ∉ Dict.keys d.
Proof.
  induction d as [|[k' v'] d IH]; simpl.
  - split; [intros _; apply not_elem_of_nil | done].
  - destruct (String.eqb_spec k k') as [->|Hne].
    + split; [done | intros H; exfalso; apply H; constructor].
    + rewrite IH. rewrite not_elem_of_cons. tauto.
Qed.

Lemma mem_false d k : Dict.mem k d = false <-> Dict.get k d = None.
Proof. unfold Dict.mem. destruct (Dict.get k d); split; congruence. Qed.

Lemma mem_true d k : Dict.mem k d = true <-> k ∈ Dict.keys d.
Proof.
  destruct (Dict.mem k d) eqn:E.
  - split; [intros _ | done].
    destruct (decide (k ∈ Dict.keys d)) as [|Hn]; [done|].
    apply get_None in Hn. apply mem_false in Hn. congruence.
  - split; [done | intros Hin].
    apply mem_false, get_None in E. done.
Qed.

Lemma get_set_eq d k v : Dict.get k (Dict.set k v d) = Some v.
Proof.
  induction d as [|[k' v'] d IH]; simpl.
  - by rewrite String.eqb_refl.
  - destruct (String.eqb_spec k k') as [->|Hne]; simpl.
    + by rewrite String.eqb_refl.
    + destruct (String.eqb_spec k k'); [done | apply IH].
Qed.

Lemma get_set_ne d k k' v :
  k ≠ k' -> Dict.get k (Dict.set k' v d) = Dict.get k d.
Proof.
  intros Hne. induction d as [|[k2 v2] d IH]; simpl.
  - destruct (String.eqb_spec k k'); [done | done].
  - destruct (String.eqb_spec k' k2) as [->|Hne2]; simpl.
    + destruct (String.eqb_spec k k2); done.
    + destruct (String.eqb_spec k k2); [done | apply IH].
Qed.

Lemma get_del_eq d k : Dict.get k (Dict.del k d) = None.
Proof.
  induction d as [|[k' v'] d IH]; simpl; [done|].
  destruct (String.eqb_spec k k') as [->|Hne]; simpl; [done|].
  destruct (String.eqb_spec k k'); [done | apply IH].
Qed.

Lemma get_del_ne d k k' :
  k ≠ k' -> Dict.get k (Dict.del k' d) = Dict.get k d.
Proof.
  intros Hne. induction d as [|[k2 v2] d IH]; simpl; [done|].
  destruct (String.eqb_spec k' k2) as [->|Hne2]; simpl.
  - destruct (String.eqb_spec k k2); [done | apply IH].
  - destruct (String.eqb_spec k k2); [done | apply IH].
Qed.

Lemma set_fresh d k v : Dict.get k d = None -> Dict.set k v d = d ++ [(k, v)].
Proof.
  induction d as [|[k' v'] d IH]; simpl; [done|].
  destruct (String.eqb_spec k k'); [done|].
  intros H. by rewrite IH.
Qed.

Lemma del_fresh d k : Dict.get k d = None -> Dict.del k d = d.
Proof.
  induction d as [|[k' v'] d IH]; simpl; [done|].
  destruct (String.eqb_spec k k'); [done|].
  intros H. by rewrite IH.
Qed.

Lemma keys_del d k : Dict.keys (Dict.del k d) = filter (λ x, x ≠ k) (Dict.keys d).
Proof.
  unfold Dict.keys.
  induction d as [|[k' v'] d IH]; simpl; [done|].
  destruct (String.eqb_spec k k') as [->|Hne].
  - rewrite filter_cons_False; [apply IH | naive_solver].
  - rewrite filter_cons_True by congruence. simpl. f_equal. apply IH.
Qed.

Lemma keys_set_mem d k v :
  Dict.mem k d = true -> Dict.keys (Dict.set k v d) = Dict.keys d.
Proof.
  unfold Dict.keys, Dict.mem.
  induction d as [|[k' v'] d IH]; simpl; [done|].
  destruct (String.eqb_spec k k') as [->|Hne]; simpl; [done|].
  intros H. f_equal. by apply IH.
Qed.

Lemma get_app_fresh d k v k' :
  Dict.get k' (d ++ [(k, v)]) =
    match Dict.get k' d with
    | Some x => Some x
    | None => if String.eqb k' k then Some v else None
    end.
Proof.
  induction d as [|[k2 v2] d IH]; simpl; [done|].
  destruct (String.eqb_spec k' k2); [done | apply IH].
Qed.

Lemma get_move_to_end_eq d k v :
  Dict.get k d = Some v -> Dict.get k (Dict.move_to_end k d) = Some v.
Proof.
  intros H. unfold Dict.move_to_end. rewrite H.
  rewrite get_app_fresh, get_del_eq. by rewrite String.eqb_refl.
Qed.

Lemma del_app d1 d2 k :
  Dict.del k (d1 ++ d2) = Dict.del k d1 ++ Dict.del k d2.
Proof.
  induction d1 as [|[k' v'] d1 IH]; simpl; [done|].
  destruct (String.eqb_spec k k'); [done|]. simpl. by f_equal.
Qed.

Lemma move_to_end_last d k v :
  Dict.get k d = None ->
  Dict.move_to_end k (d ++ [(k, v)]) = d ++ [(k, v)].
Proof.
  intros H. unfold Dict.move_to_end.
  rewrite get_app_fresh, H, String.eqb_refl.
  rewrite del_app, (del_fresh _ _ H). simpl.
  by rewrite String.eqb_refl, app_nil_r.
Qed.

Lemma keys_app d1 d2 : Dict.keys (d1 ++ d2) = Dict.keys d1 ++ Dict.keys d2.
Proof. unfold Dict.keys. apply fmap_app. Qed.

Lemma length_del d k : (length (Dict.del k d) <= length d)%nat.
Proof.
  induction d as [|[k' v'] d IH]; simpl; [done|].
  destruct (String.eqb k k'); simpl; lia.
Qed.

Lemma length_move_to_end d k :
  (length (Dict.move_to_end k d) <= length d)%nat.
Proof.
  unfold Dict.move_to_end.
  destruct (Dict.get k d) as [v|] eqn:E; [|done].
  rewrite length_app. simpl.
  induction d as [|[k' v'] d IH]; simpl in *; [done|].
  destruct (String.eqb k k'); simpl.
  - pose proof (length_del d k). lia.
  - specialize (IH E). lia.
Qed.

(** Deleting every key leaves nothing. *)
Lemma del_all d ks :
  (forall k, k ∈ Dict.keys d -> k ∈ ks) ->
  foldl (λ acc k, Dict.del k acc) d ks = [].
Proof.
  revert d. induction ks as [|k ks IH]; intros d Hsub; cbn [foldl].
  - destruct d as [|[k v] d]; [done|].
    exfalso. eapply not_elem_of_nil, (Hsub k). left.
  - apply IH. intros x. rewrite keys_del, list_elem_of_filter.
    intros [Hne Hin]. apply Hsub in Hin.
    apply elem_of_cons in Hin as [->|Hin]; done.
Qed.

Lemma del_all_keys d : foldl (λ acc k, Dict.del k acc) d (Dict.keys d) = [].
Proof. by apply del_all. Qed.
End DictFacts.
End DictFacts.

(** ** The storage directory *)

Lemma names_write_file k e d : names (write_file k e d) = names d.
Proof. unfold write_file. by destruct (names d k). Qed.




Lemma lookup_write_file_ne k k' e d :
  names d k' ≠ names d k -> write_file k e d !! k' = d !! k'.
Proof.
  intros Hne. unfold lookup, directory_lookup, write_file.
  destruct (names d k) as [f|] eqn:Hf; [|done]. simpl.
  destruct (names d k') as [f'|]; [|done].
  apply lookup_insert_ne. congruence.
Qed.


Lemma lookup_is_Some_names k (d : directory) e :
  d !! k = Some e -> is_Some (names d k).
Proof.
  unfold lookup, directory_lookup. destruct (names d k); [by eauto|done].
Qed.

Lemma run_task_names t dk : names (run_task t dk).2 = names dk.
Proof.
  destruct t as [k [e|]|k]; simpl; try done.
  - destruct (writable k dk); [apply names_write_file|done].
  - by destruct (dk !! k).
Qed.

(** ** The executor *)

Lemma run_future_book h s : book (run_future h s) = book s.
Proof.
  unfold run_future.
  destruct (executor s !! h) as [[t [r|]]|]; try done.
  by destruct (run_task t (disk s)).
Qed.

Lemma run_future_queued h s t :
  executor s !! h = Some (Future t None) ->
  executor (run_future h s)
    = <[h := Future t (Some (run_task t (disk s)).1)]> (executor s)
  /\ disk (run_future h s) = (run_task t (disk s)).2.
Proof.
  intros H. unfold run_future. rewrite H.
  by destruct (run_task t (disk s)).
Qed.

Lemma run_future_names h s : names (disk (run_future h s)) = names (disk s).
Proof.
  unfold run_future.
  destruct (executor s !! h) as [[t [r|]]|]; try done.
  pose proof (run_task_names t (disk s)) as H.
  by destruct (run_task t (disk s)).
Qed.

Lemma run_future_skip h s :
  (forall t, executor s !! h ≠ Some (Future t None)) -> run_future h s = s.
Proof.
  intros H. unfold run_future.
  destruct (executor s !! h) as [[t [r|]]|] eqn:E; try done.
  by destruct (H t).
Qed.

Lemma run_future_other h j s :
  j ≠ h -> executor (run_future h s) !! j = executor s !! j.
Proof.
  intros Hne. unfold run_future.
  destruct (executor s !! h) as [[t [r|]]|] eqn:E; try done.
  destruct (run_task t (disk s)). simpl.
  by apply list_lookup_insert_ne.
Qed.

Lemma run_future_length h s :
  length (executor (run_future h s)) = length (executor s).
Proof.
  unfold run_future.
  destruct (executor s !! h) as [[t [r|]]|] eqn:E; try done.
  destruct (run_task t (disk s)). simpl. apply length_insert.
Qed.

Lemma run_future_done_keep h j s :
  is_done j s = true -> executor (run_future h s) !! j = executor s !! j.
Proof.
  intros Hd. destruct (decide (j = h)) as [->|Hne].
  - rewrite run_future_skip; [done|].
    intros t E. unfold is_done in Hd. by rewrite E in Hd.
  - by apply run_future_other.
Qed.

Lemma is_done_run_future h j s :
  is_done j s = true -> is_done j (run_future h s) = true.
Proof.
  intros Hd. unfold is_done. rewrite run_future_done_keep by done. apply Hd.
Qed.

Lemma run_all_book ks s : book (run_all ks s) = book s.
Proof.
  revert s. induction ks as [|k ks IH]; intros s; [done|].
  unfold run_all in *. cbn [foldl]. rewrite IH. apply run_future_book.
Qed.

Lemma run_all_names ks s : names (disk (run_all ks s)) = names (disk s).
Proof.
  revert s. induction ks as [|k ks IH]; intros s; [done|].
  unfold run_all in *. cbn [foldl]. rewrite IH. apply run_future_names.
Qed.

Lemma run_all_other ks j s :
  j ∉ ks -> executor (run_all ks s) !! j = executor s !! j.
Proof.
  revert s. induction ks as [|k ks IH]; intros s Hj; [done|].
  apply not_elem_of_cons in Hj as [Hne Hj].
  unfold run_all in *. cbn [foldl]. rewrite IH by done.
  by apply run_future_other.
Qed.

Lemma run_all_length ks s :
  length (executor (run_all ks s)) = length (executor s).
Proof.
  revert s. induction ks as [|k ks IH]; intros s; [done|].
  unfold run_all in *. cbn [foldl]. rewrite IH. apply run_future_length.
Qed.

Lemma is_done_run_all ks j s :
  is_done j s = true -> is_done j (run_all ks s) = true.
Proof.
  revert s. induction ks as [|k ks IH]; intros s Hd; [done|].
  unfold run_all in *. cbn [foldl]. apply IH. by apply is_done_run_future.
Qed.

Lemma await_unfold h s : await h s = run_future h (run_all (seq 0 h) s).
Proof.
  unfold await, run_all. rewrite seq_S. cbn [Nat.add]. by rewrite foldl_app.
Qed.

Lemma await_book h s : book (await h s) = book s.
Proof. rewrite await_unfold, run_future_book. apply run_all_book. Qed.

Lemma await_names h s : names (disk (await h s)) = names (disk s).
Proof. rewrite await_unfold, run_future_names. apply run_all_names. Qed.

(** After blocking on a queued future, that future has run. *)
Lemma await_queued h s t :
  executor s !! h = Some (Future t None) ->
  let s1 := run_all (seq 0 h) s in
  executor (await h s) !! h = Some (Future t (Some (run_task t (disk s1)).1))
  /\ disk (await h s) = (run_task t (disk s1)).2.
Proof.
  intros H s1. rewrite await_unfold. fold s1.
  assert (executor s1 !! h = Some (Future t None)) as H1.
  { unfold s1. rewrite run_all_other; [done|].
    rewrite elem_of_seq. lia. }
  destruct (run_future_queued _ _ _ H1) as [-> ->]. split; [|done].
  apply list_lookup_insert_eq. by eapply lookup_lt_Some.
Qed.

Lemma is_done_await h j s : is_done j s = true -> is_done j (await h s) = true.
Proof.
  intros Hd. rewrite await_unfold.
  by apply is_done_run_future, is_done_run_all.
Qed.

Lemma is_done_await_self h s t :
  executor s !! h = Some (Future t None) -> is_done h (await h s) = true.
Proof.
  intros H. destruct (await_queued _ _ _ H) as [E _].
  unfold is_done. by rewrite E.
Qed.

(** Submitting more work leaves earlier futures as they are. *)
Lemma is_done_extend j s s' more :
  executor s' = executor s ++ more ->
  is_done j s = true -> is_done j s' = true.
Proof.
  intros E Hd. unfold is_done in *. rewrite E.
  destruct (executor s !! j) as [f|] eqn:Ej; [|done].
  by rewrite (lookup_app_l_Some _ _ _ _ Ej).
Qed.

(** ** Eviction *)

Lemma _swap_out_lru_cons s k v rest :
  memory_cache s = (k, v) :: rest ->
  _swap_out_lru s = (Ret tt, evict k v rest s).
Proof.
  intros H. unfold _swap_out_lru, bind, gets. rewrite H. reflexivity.
Qed.

Lemma _swap_out_lru_nil s :
  memory_cache s = [] -> _swap_out_lru s = (Ret tt, s).
Proof.
  intros H. unfold _swap_out_lru, bind, gets. rewrite H. reflexivity.
Qed.

Lemma evicted_nil s : evicted [] s s.
Proof.
  split; try done.
  - simpl. by rewrite app_nil_r.
  - simpl. set_solver.
Qed.

Lemma evicted_cons k v rest out s s' :
  memory_cache s = (k, v) :: rest ->
  evicted out (evict k v rest s) s' ->
  evicted ((k, v) :: out) s s'.
Proof.
  intros Hc [E1 E2 E3 E4 E5 E6 E7 E8]. simpl in *. split; simpl.
  - by rewrite Hc, E1.
  - done.
  - done.
  - done.
  - by rewrite E5, <- app_assoc.
  - rewrite E6. set_solver.
  - intros k' Hk'. apply not_elem_of_cons in Hk' as [Hne Hk'].
    rewrite E7 by done. by apply DictFacts.get_set_ne.
  - by rewrite E8, <- app_assoc.
Qed.

(** With nothing left to evict and a limit that is not positive, the
    loop condition stays true: no amount of fuel ends the loop. *)
Lemma reserve_loop_hang_empty fuel limit s :
  memory_cache s = [] -> limit <= 0 ->
  reserve_loop fuel limit s = (Hang, s).
Proof.
  intros Hc Hl.
  induction fuel as [|fuel IH]; cbn [reserve_loop]; rewrite Hc;
    change (Z.of_nat (length [])) with 0;
    destruct (Z.leb_spec limit 0); try lia; [done|].
  unfold bind. by rewrite (_swap_out_lru_nil _ Hc).
Qed.

Lemma reserve_loop_spec fuel limit s o s' :
  (length (memory_cache s) < fuel)%nat ->
  reserve_loop fuel limit s = (o, s') ->
  exists out, evicted out s s'
    /\ (o = Ret tt /\ Z.of_nat (length (memory_cache s')) < limit
        \/ o = Hang /\ limit <= 0 /\ memory_cache s' = []).
Proof.
  revert s. induction fuel as [|fuel IH]; intros s Hfuel; [lia|]. simpl.
  destruct (Z.leb_spec limit (Z.of_nat (length (memory_cache s)))) as [Hle|Hlt].
  - unfold bind.
    destruct (memory_cache s) as [|[k v] rest] eqn:Hc.
    + rewrite (_swap_out_lru_nil _ Hc).
      simpl in Hle. rewrite reserve_loop_hang_empty by done.
      intros [= <- <-]. exists []. split; [apply evicted_nil | right; done].
    + rewrite (_swap_out_lru_cons _ _ _ _ Hc). intros H.
      apply IH in H as (out & Hev & Ho); [|simpl in *; lia].
      exists ((k, v) :: out). split; [by eapply evicted_cons | done].
  - intros [= <- <-]. exists []. split; [apply evicted_nil | left; done].
Qed.

Lemma reserve_spec limit s o s' :
  reserve limit s = (o, s') ->
  exists out, evicted out s s'
    /\ (o = Ret tt /\ Z.of_nat (length (memory_cache s')) < limit
        \/ o = Hang /\ limit <= 0 /\ memory_cache s' = []).
Proof. unfold reserve. apply reserve_loop_spec. lia. Qed.

(** More fuel than [reserve] gives changes nothing. *)
Lemma reserve_loop_fuel fuel limit s :
  (length (memory_cache s) < fuel)%nat ->
  reserve_loop fuel limit s = reserve limit s.
Proof.
  unfold reserve. revert s.
  induction fuel as [|fuel IH]; intros s Hfuel; [lia|].
  cbn [reserve_loop].
  destruct (Z.leb_spec limit (Z.of_nat (length (memory_cache s)))) as [Hle|Hlt];
    [|done].
  unfold bind. destruct (memory_cache s) as [|[k v] rest] eqn:Hc.
  - rewrite (_swap_out_lru_nil _ Hc). simpl in Hle.
    by rewrite !reserve_loop_hang_empty.
  - rewrite (_swap_out_lru_cons _ _ _ _ Hc).
    rewrite IH by (simpl in *; lia). reflexivity.
Qed.

Lemma reserve_returns limit s :
  1 <= limit -> exists s', reserve limit s = (Ret tt, s').
Proof.
  intros Hl. destruct (reserve limit s) as [o s'] eqn:E.
  destruct (reserve_spec _ _ _ _ E) as (out & _ & [[-> _]|[_ [? _]]]);
    [eauto | lia].
Qed.

Lemma reserve_hangs limit s :
  limit <= 0 -> forall fuel, (reserve_loop fuel limit s).1 = Hang.
Proof.
  intros Hl fuel. revert s. induction fuel as [|fuel IH]; intros s; simpl.
  - destruct (Z.leb_spec limit (Z.of_nat (length (memory_cache s)))); [done|lia].
  - destruct (Z.leb_spec limit (Z.of_nat (length (memory_cache s)))); [|lia].
    unfold bind. destruct (memory_cache s) as [|[k v] rest] eqn:Hc.
    + rewrite (_swap_out_lru_nil _ Hc). apply IH.
    + rewrite (_swap_out_lru_cons _ _ _ _ Hc). apply IH.
Qed.

(** ** Straight-line steps *)

Ltac unfold_steps :=
  unfold cache_set, cache_move_to_end, cache_del, pending_set, pending_del,
    on_disk_add, on_disk_discard, record_access, future_done, submit, emit,
    slice3, bind, gets, modify, ret, raise in *.

Ltac fields :=
  cbn [max_memory prefetch_window memory_cache on_disk access_pattern
       pending_ops executor disk history set_memory_cache set_on_disk
       set_access_pattern set_pending_ops set_executor set_disk set_history
       fst snd] in *.

Lemma book_shelf s s' :
  book s' = book s -> shelf s' = shelf s /\ pending_ops s' = pending_ops s.
Proof. unfold book, shelf. intros [= -> -> -> -> -> -> ->]. done. Qed.

Lemma future_result_book h s o s' :
  future_result h s = (o, s') -> book s' = book s.
Proof.
  unfold future_result.
  assert (book (if is_done h s then s else await h s) = book s) as Hb.
  { destruct (is_done h s); [done | apply await_book]. }
  destruct (executor _ !! h) as [[t [[v|e]|]]|]; intros [= <- <-]; done.
Qed.

(** ** Flush *)

Lemma flush_one_ret k s s' :
  flush_one k s = (Ret tt, s') ->
  shelf s' = shelf s /\ pending_ops s' = Dict.del k (pending_ops s).
Proof.
  unfold flush_one. unfold_steps.
  destruct (Dict.get k (pending_ops s)) as [h|]; [|done].
  destruct (is_done h s).
  - intros [= <-]. done.
  - destruct (future_result h s) as [[v|e|] s1] eqn:E; try done.
    intros [= <-]. apply future_result_book, book_shelf in E as [E1 E2].
    simpl. by rewrite <- E2.
Qed.




(** ** Timeout *)

(** C7, amended.  For an id that is not resident and whose pending
    operation has not finished, [get_expert] with an expired deadline
    raises [TimeoutError] and leaves the whole state as it was: the
    pending table still maps the id to the same future. *)
Theorem get_expert_timeout_keeps_state s expert_id h :
  Dict.mem expert_id (memory_cache s) = false ->
  Dict.get expert_id (pending_ops s) = Some h ->
  is_done h s = false ->
  get_expert expert_id (Some false) s = (Raise TimeoutError, s).
Proof.
  intros Hc Hp Hd. unfold get_expert. unfold_steps.
  by rewrite Hc, Hp, Hd.
Qed.

(** ** Synchronous admission *)

Lemma evicted_fresh out s s' k :
  evicted out s s' -> Dict.mem k (memory_cache s) = false ->
  (k ∉ Dict.keys out) /\ Dict.get k (memory_cache s') = None.
Proof.
  intros Hev Hk. apply DictFacts.mem_false, DictFacts.get_None in Hk.
  rewrite (ev_cache _ _ _ Hev), DictFacts.keys_app, not_elem_of_app in Hk.
  destruct Hk as [Hk1 Hk2]. split; [done | by apply DictFacts.get_None].
Qed.

(** What the synchronous part of [swap_in] does, case by case. *)
Lemma swap_in_fetch_sync k s o s' :
  swap_in_fetch k false s = (o, s') ->
  (Dict.mem k (memory_cache s) = true
   /\ o = Ret (Dict.get k (memory_cache s))
   /\ s' = promoted k (accessed k s))
  \/ (Dict.mem k (memory_cache s) = false
      /\ exists out s2, evicted out (accessed k s) s2
         /\ (o = Hang /\ max_memory s <= 0 /\ s' = s2
             \/ Z.of_nat (length (memory_cache s2)) < max_memory s
                /\ (disk s !! k = None
                    /\ o = Raise FileNotFoundError /\ s' = s2
                    \/ exists e, disk s !! k = Some e
                       /\ o = Ret (Some (VTuple e))
                       /\ s' = loaded k e s2))).
Proof.
  unfold swap_in_fetch. unfold_steps.
  change (set_access_pattern _ s) with (accessed k s).
  assert (memory_cache (accessed k s) = memory_cache s) as Ec by done.
  assert (max_memory (accessed k s) = max_memory s) as Em by done.
  assert (disk (accessed k s) = disk s) as Ed by done.
  rewrite Ec.
  destruct (Dict.mem k (memory_cache s)) eqn:Hm; cbv beta.
  - rewrite Ec, Hm. intros [= <- <-]. left. done.
  - rewrite Em, Z.sub_0_r.
    destruct (reserve (max_memory s) (accessed k s)) as [o2 s2] eqn:Hr.
    apply reserve_spec in Hr as (out & Hev & Ho).
    assert (Dict.mem k (memory_cache (accessed k s)) = false) as Hm'
      by by rewrite Ec.
    destruct (evicted_fresh _ _ _ k Hev Hm') as [Hout Hget].
    intros H. right. split; [done|]. exists out, s2. split; [done|].
    destruct Ho as [[-> Hlen]|(-> & Hmax & Hc)].
    + right. split; [done|].
      rewrite (ev_disk _ _ _ Hev), Ed in H.
      destruct (disk s !! k) as [e|] eqn:Hd.
      * right. exists e. split; [done|]. fields.
        assert (Dict.mem k (memory_cache s2) = false) as Hm2
          by by apply DictFacts.mem_false.
        rewrite Hm2 in H. fields.
        assert (Dict.mem k (Dict.set k (VTuple e) (memory_cache s2)) = true)
          as Hm3.
        { unfold Dict.mem. by rewrite DictFacts.get_set_eq. }
        rewrite Hm3 in H.
        rewrite (DictFacts.set_fresh _ _ _ Hget) in H.
        rewrite (DictFacts.move_to_end_last _ _ _ Hget) in H.
        injection H as <- <-. done.
      * left. injection H as <- <-. done.
    + left. injection H as <- <-. done.
Qed.

(** Blocking on a queued future: it has run when [result()] is back. *)
Lemma future_result_queued h s t :
  executor s !! h = Some (Future t None) ->
  exists o s1, future_result h s = (o, s1)
    /\ s1 = await h s
    /\ o ≠ Hang
    /\ is_done h s1 = true.
Proof.
  intros H. unfold future_result.
  assert (is_done h s = false) as -> by (unfold is_done; by rewrite H).
  destruct (await_queued _ _ _ H) as [E _]. rewrite E.
  assert (is_done h (await h s) = true) as Hd by by eapply is_done_await_self.
  destruct (run_task t _).1 as [v|e]; eexists _, _; done.
Qed.

Lemma evicted_is_done out s s' j :
  evicted out s s' -> is_done j s = true -> is_done j s' = true.
Proof. intros Hev. eapply is_done_extend, ev_executor, Hev. Qed.

(** ** A blocked synchronous swap-in keeps the pending entry *)

(** C10.  When a synchronous [swap_in] finds a pending future for the id
    that has not run yet, it waits for it and leaves the entry in the
    pending table: afterwards the table still maps the id to the same
    future, which is now done.  With room for at least one expert the
    call does come back (with data or an exception). *)
Theorem swap_in_sync_keeps_pending_entry s expert_id h t :
  Dict.get expert_id (pending_ops s) = Some h ->
  executor s !! h = Some (Future t None) ->
  exists o s', swap_in expert_id false s = (o, s')
    /\ Dict.get expert_id (pending_ops s') = Some h
    /\ is_done h s' = true
    /\ (1 <= max_memory s -> o ≠ Hang).
Proof.
  intros Hp Hq. unfold swap_in. unfold_steps. rewrite Hp.
  assert (is_done h s = false) as -> by (unfold is_done; by rewrite Hq).
  cbn [negb].
  destruct (future_result_queued _ _ _ Hq) as (o1 & s1 & -> & -> & Ho1 & Hd).
  assert (book (await h s) = book s) as Hb by apply await_book.
  assert (Dict.get expert_id (pending_ops (await h s)) = Some h) as Hp1.
  { apply book_shelf in Hb as [_ ->]. done. }
  assert (max_memory (await h s) = max_memory s) as Hmax.
  { unfold book in Hb. congruence. }
  destruct o1 as [v|e|]; [|by eexists _, _|done].
  destruct (swap_in_fetch expert_id false (await h s)) as [o s'] eqn:E.
  exists o, s'. split; [done|].
  apply swap_in_fetch_sync in E
    as [(Hm & -> & ->)|(Hm & out & s2 & Hev & Hcases)].
  - done.
  - destruct (evicted_fresh _ _ _ expert_id Hev Hm) as [Hout _].
    assert (Dict.get expert_id (pending_ops s2) = Some h) as Hp2.
    { rewrite (ev_pending _ _ _ Hev) by done. done. }
    assert (is_done h s2 = true) as Hd2 by by eapply evicted_is_done.
    destruct Hcases as [(-> & Hle & ->)|(_ & [(_ & -> & ->)|(e & _ & -> & ->)])].
    + repeat split; try done. lia.
    + done.
    + done.
Qed.

(** ** Round trip *)

Lemma mem_set_eq (c : Dict.t value) k v : Dict.mem k (Dict.set k v c) = true.
Proof. unfold Dict.mem. by rewrite DictFacts.get_set_eq. Qed.



(** Where the file cannot be created, [swap_out] raises and the state
    stays as it was. *)
Lemma swap_out_unwritable k e s :
  Dict.get k (memory_cache s) = Some (VTuple e) ->
  names (disk s) k = None ->
  swap_out k s = (Raise IOError, s).
Proof.
  intros H Hn. unfold swap_out. unfold_steps. rewrite H. cbv beta.
  unfold writable. by rewrite Hn.
Qed.








Lemma worker_step_book s : book (worker_step s) = book s.
Proof.
  unfold worker_step. destruct (first_queued (executor s)); [|done].
  apply run_future_book.
Qed.

Lemma worker_steps_book n s : book (Nat.iter n worker_step s) = book s.
Proof.
  induction n as [|n IH]; [done|]. simpl. by rewrite worker_step_book.
Qed.


Lemma swap_in_fetch_loads k e s :
  1 <= max_memory s ->
  Dict.get k (memory_cache s) = None ->
  disk s !! k = Some e ->
  exists s', swap_in_fetch k false s = (Ret (Some (VTuple e)), s').
Proof.
  intros Hmax Hc Hd.
  destruct (swap_in_fetch k false s) as [o s'] eqn:E. exists s'.
  apply DictFacts.mem_false in Hc.
  apply swap_in_fetch_sync in E
    as [(Hm & _)|(_ & out & s2 & _ & [(_ & Hle & _)|(_ & [(Hn & _)|(e' & He & -> & _)])])];
    try congruence; try lia.
Qed.


(** ** Background admission *)

Lemma swap_in_fetch_background k s o s' :
  swap_in_fetch k true s = (o, s') ->
  (Dict.mem k (memory_cache s) = true
   /\ o = Ret None /\ s' = promoted k (accessed k s))
  \/ (Dict.mem k (memory_cache s) = false
      /\ exists out s2, evicted out (accessed k s) s2
         /\ (o = Hang /\ max_memory s <= 1 /\ s' = s2
             \/ Z.of_nat (length (memory_cache s2)) < max_memory s - 1
                /\ o = Ret None /\ s' = load_submitted k s2)).
Proof.
  unfold swap_in_fetch. unfold_steps.
  change (set_access_pattern _ s) with (accessed k s).
  assert (memory_cache (accessed k s) = memory_cache s) as Ec by done.
  assert (max_memory (accessed k s) = max_memory s) as Em by done.
  rewrite Ec.
  destruct (Dict.mem k (memory_cache s)) eqn:Hm; cbv beta.
  - rewrite Ec, Hm. intros [= <- <-]. left. done.
  - rewrite Em.
    destruct (reserve (max_memory s - 1) (accessed k s)) as [o2 s2] eqn:Hr.
    apply reserve_spec in Hr as (out & Hev & Ho).
    intros H. right. split; [done|]. exists out, s2. split; [done|].
    destruct Ho as [[-> Hlen]|(-> & Hmax & Hc)].
    + right. injection H as <- <-. done.
    + left. injection H as <- <-. split; [done|]. split; [lia|done].
Qed.

(** A background [swap_in] hands out no data: it returns [None], or, when
    the capacity is at most 1, it does not return. *)
Lemma swap_in_background_outcome k s :
  (swap_in k true s).1 = Ret None
  \/ (swap_in k true s).1 = Hang /\ max_memory s <= 1.
Proof.
  unfold swap_in. unfold_steps.
  assert (forall s1, max_memory s1 = max_memory s ->
    (swap_in_fetch k true s1).1 = Ret None
    \/ (swap_in_fetch k true s1).1 = Hang /\ max_memory s <= 1) as Hfetch.
  { intros s1 Hmax. destruct (swap_in_fetch k true s1) as [o s'] eqn:E.
    apply swap_in_fetch_background in E
      as [(_ & -> & _)|(_ & out & s2 & _ & [(-> & Hle & _)|(_ & -> & _)])];
      simpl; [by left | right; split; [done|lia] | by left]. }
  destruct (Dict.get k (pending_ops s)) as [h|]; [|by apply Hfetch].
  destruct (is_done h s); [by apply Hfetch | by left].
Qed.

Lemma swap_in_background_returns k s :
  2 <= max_memory s -> (swap_in k true s).1 = Ret None.
Proof.
  intros H. destruct (swap_in_background_outcome k s) as [|[_ ?]]; [done|lia].
Qed.

(** ** The two phases of [swap_in] and [get_expert] *)

Lemma swap_in_phases k b s o s' :
  swap_in k b s = (o, s') ->
  exists s1, shelf s1 = shelf s
    /\ (swap_in_fetch k b s1 = (o, s') \/ s' = s1).
Proof.
  unfold swap_in. unfold_steps.
  destruct (Dict.get k (pending_ops s)) as [h|]; [|by exists s; auto].
  destruct (is_done h s).
  - intros H. eexists. split; [|left; exact H]. done.
  - destruct b; cbn [negb].
    + intros [= <- <-]. exists s. auto.
    + destruct (future_result h s) as [[v|e|] s1] eqn:E;
        apply future_result_book, book_shelf in E as [E _];
        intros H; exists s1; (split; [done|]).
      * by left.
      * right. by injection H.
      * right. by injection H.
Qed.

Lemma take_future_state k h s o s' :
  take_future k h s = (o, s') ->
  on_disk s' = on_disk s
  /\ (history s' = history s \/ history s' = Inserted k :: history s).
Proof.
  unfold take_future. unfold_steps.
  destruct (future_result h s) as [[v|e|] s1] eqn:E;
    apply future_result_book, book_shelf in E as [E _];
    unfold shelf in E; injection E as _ _ _ Eo _ Eh; fields.
  - destruct (Dict.mem k (memory_cache s1)); cbv beta; fields;
      destruct v; intros [= <- <-]; fields; split; auto; by rewrite Eh; auto.
  - intros [= <- <-]. auto.
  - intros [= <- <-]. auto.
Qed.

Lemma get_expert_phases k t s o s' :
  get_expert k t s = (o, s') ->
  (on_disk s' = on_disk s
   /\ (history s' = history s
       \/ history s' = Inserted k :: history s
       \/ history s' = Promoted k :: history s))
  \/ exists o2, swap_in k false s = (o2, s').
Proof.
  assert (forall o s',
    (r <- swap_in k false ;;
     match r with
     | Some data => slice3 data
     | None => raise TypeError
     end) s = (o, s') -> exists o2, swap_in k false s = (o2, s')) as Hfall.
  { intros o1 s1. unfold_steps.
    destruct (swap_in k false s) as [[[[e|]|]|e|] s2]; intros [= <- <-]; eauto. }
  unfold get_expert. cbv zeta. unfold bind at 1. unfold gets at 1.
  destruct (Dict.mem k (memory_cache s)) eqn:Hm.
  - unfold_steps. rewrite Hm. cbv beta. fields.
    destruct (Dict.get k (memory_cache s)) as [[e|]|];
      intros [= <- <-]; left; fields; auto.
  - unfold bind at 1. unfold gets at 1.
    destruct (Dict.get k (pending_ops s)) as [h|]; [|intros H; right; eauto].
    unfold bind at 1. unfold future_done, gets.
    destruct (is_done h s).
    + intros H. left. apply take_future_state in H as [? [?|?]]; auto.
    + destruct t as [[|]|].
      * intros H. left. apply take_future_state in H as [? [?|?]]; auto.
      * intros [= <- <-]. left. auto.
      * intros H; right; eauto.
Qed.

(** ** The on-disk set *)

Lemma eviction_events_elem out ev :
  ev ∈ eviction_events out ->
  exists k, k ∈ Dict.keys out /\ (ev = StoreIssued k \/ ev = Evicted k).
Proof.
  induction out as [|[k v] out IH]; simpl.
  - by intros ?%elem_of_nil.
  - rewrite elem_of_app, !elem_of_cons, elem_of_nil.
    intros [H|[->|[->|[]]]].
    + destruct (IH H) as (k' & Hk' & Hev). exists k'. split; [by right|done].
    + exists k. split; [by left|by left].
    + exists k. split; [by left|by right].
Qed.

Lemma eviction_events_issued out k :
  k ∈ Dict.keys out ->
  StoreIssued k ∈ eviction_events out /\ Evicted k ∈ eviction_events out.
Proof.
  induction out as [|[k' v] out IH]; simpl.
  - by intros ?%elem_of_nil.
  - rewrite !elem_of_app, !elem_of_cons.
    intros [->|H]; [split; right; auto|].
    destruct (IH H). split; by left.
Qed.

Lemma ok_quiet c s s' evs :
  history s' = evs ++ history s ->
  on_disk s' = on_disk s ->
  (forall k, StoreIssued k ∉ evs) ->
  membership_ok c s s'.
Proof.
  intros Hh Ho Hq. exists evs. split; [done|]. rewrite Ho.
  repeat split; intros k; try (intros H; by destruct (Hq k)); auto.
  intros H1 H2. done.
Qed.

Lemma ok_same c s s' :
  history s' = history s -> on_disk s' = on_disk s -> membership_ok c s s'.
Proof.
  intros Hh Ho. apply (ok_quiet c s s' []); [done|done|].
  intros k. apply not_elem_of_nil.
Qed.

Lemma ok_evictions c s s' out :
  history s' = eviction_events out ++ history s ->
  on_disk s' = list_to_set (Dict.keys out) ∪ on_disk s ->
  membership_ok c s s'.
Proof.
  intros Hh Ho. exists (eviction_events out). split; [done|]. rewrite Ho.
  repeat split; intros k.
  - intros (k' & Hk' & [[= ->]|[=]])%eviction_events_elem. set_solver.
  - rewrite elem_of_union, elem_of_list_to_set.
    intros [H|H]; [right|by left]. by apply eviction_events_issued.
  - intros (k' & Hk' & [[= ->]|[=]])%eviction_events_elem.
    left. by apply eviction_events_issued.
  - set_solver.
Qed.

Lemma ok_loaded c s s' out k :
  history s' = [Promoted k; Inserted k; DiskRead k] ++ eviction_events out ++ history s ->
  on_disk s' = (list_to_set (Dict.keys out) ∪ on_disk s) ∖ {[k]} ->
  k ∉ Dict.keys out ->
  c = SwapIn k false \/ (exists t, c = GetExpert k t) ->
  membership_ok c s s'.
Proof.
  intros Hh Ho Hk Hc.
  exists ([Promoted k; Inserted k; DiskRead k] ++ eviction_events out).
  split; [by rewrite <- app_assoc|]. rewrite Ho.
  assert (forall k', StoreIssued k' ∈ [Promoted k; Inserted k; DiskRead k] ++ eviction_events out
            -> k' ∈ Dict.keys out) as Hissued.
  { intros k'. rewrite elem_of_app, !elem_of_cons, elem_of_nil.
    intros [[[=]|[[=]|[[=]|[]]]]|H].
    by apply eviction_events_elem in H as (k2 & Hk2 & [[= ->]|[=]]). }
  repeat split; intros k'.
  - intros H%Hissued. apply elem_of_difference. split.
    + apply elem_of_union. left. by apply elem_of_list_to_set.
    + intros ->%elem_of_singleton. done.
  - rewrite elem_of_difference, elem_of_union, elem_of_list_to_set.
    intros [[H|H] _]; [right|by left].
    apply elem_of_app. right. by apply eviction_events_issued.
  - intros H%Hissued. left. apply elem_of_app. right.
    by apply eviction_events_issued.
  - rewrite elem_of_difference, elem_of_union, elem_of_singleton.
    intros H1 H2. destruct (decide (k' = k)) as [->|Hne].
    + right. split; [|done]. apply elem_of_app. left.
      rewrite !elem_of_cons. auto.
    + exfalso. apply H2. split; [by right|done].
Qed.

Lemma ok_store c s s' k evs :
  history s' = evs ++ history s ->
  on_disk s' = {[k]} ∪ on_disk s ->
  (forall k', StoreIssued k' ∈ evs <-> k' = k) ->
  c = SwapOut k \/ (exists g u d m, c = RegisterExpert k g u d m true) ->
  membership_ok c s s'.
Proof.
  intros Hh Ho Hev Hc. exists evs. split; [done|]. rewrite Ho.
  repeat split; intros k'.
  - intros ->%Hev. set_solver.
  - rewrite elem_of_union, elem_of_singleton, Hev. tauto.
  - intros ->%Hev. by right.
  - set_solver.
Qed.

Lemma ok_forget s s' k evs :
  history s' = evs ++ history s ->
  on_disk s' = on_disk s ∖ {[k]} ->
  (forall k', StoreIssued k' ∉ evs) ->
  membership_ok (UnregisterExpert k) s s'.
Proof.
  intros Hh Ho Hq. exists evs. split; [done|]. rewrite Ho.
  repeat split; intros k'; try (intros H; by destruct (Hq k')).
  - set_solver.
  - rewrite elem_of_difference, elem_of_singleton. intros H1 H2.
    left. destruct (decide (k' = k)) as [->|Hne]; [done|].
    exfalso. by apply H2.
Qed.

Lemma shelf_history_on_disk s1 s :
  shelf s1 = shelf s -> history s1 = history s /\ on_disk s1 = on_disk s.
Proof. unfold shelf. intros [= _ _ _ -> _ ->]. done. Qed.

Ltac not_issued :=
  intros ?; rewrite ?elem_of_cons, elem_of_nil; intros ?; naive_solver.

Lemma swap_in_fetch_membership c k b s1 s o s' :
  swap_in_fetch k b s1 = (o, s') ->
  shelf s1 = shelf s ->
  (b = false -> c = SwapIn k false \/ exists t, c = GetExpert k t) ->
  membership_ok c s s'.
Proof.
  intros H [Hh Ho]%shelf_history_on_disk Hc. destruct b.
  - apply swap_in_fetch_background in H
      as [(_ & _ & ->)|(_ & out & s2 & Hev & [(_ & _ & ->)|(_ & _ & ->)])].
    + apply (ok_quiet _ _ _ [Promoted k]); [by simpl; rewrite Hh|done|not_issued].
    + apply (ok_evictions _ _ _ out).
      * by rewrite (ev_history _ _ _ Hev); simpl; rewrite Hh.
      * by rewrite (ev_on_disk _ _ _ Hev); simpl; rewrite Ho.
    + apply (ok_evictions _ _ _ out).
      * by simpl; rewrite (ev_history _ _ _ Hev); simpl; rewrite Hh.
      * by simpl; rewrite (ev_on_disk _ _ _ Hev); simpl; rewrite Ho.
  - apply swap_in_fetch_sync in H
      as [(_ & _ & ->)|(Hm & out & s2 & Hev & [(_ & _ & ->)|(_ & [(_ & _ & ->)|(e & _ & _ & ->)])])].
    + apply (ok_quiet _ _ _ [Promoted k]); [by simpl; rewrite Hh|done|not_issued].
    + apply (ok_evictions _ _ _ out).
      * by rewrite (ev_history _ _ _ Hev); simpl; rewrite Hh.
      * by rewrite (ev_on_disk _ _ _ Hev); simpl; rewrite Ho.
    + apply (ok_evictions _ _ _ out).
      * by rewrite (ev_history _ _ _ Hev); simpl; rewrite Hh.
      * by rewrite (ev_on_disk _ _ _ Hev); simpl; rewrite Ho.
    + apply (ok_loaded _ _ _ out k).
      * by simpl; rewrite (ev_history _ _ _ Hev); simpl; rewrite Hh.
      * by simpl; rewrite (ev_on_disk _ _ _ Hev); simpl; rewrite Ho.
      * by destruct (evicted_fresh _ _ _ k Hev Hm).
      * by apply Hc.
Qed.

Lemma swap_in_membership c k b s o s' :
  swap_in k b s = (o, s') ->
  (b = false -> c = SwapIn k false \/ exists t, c = GetExpert k t) ->
  membership_ok c s s'.
Proof.
  intros (s1 & Hs & [H| ->])%swap_in_phases Hc.
  - by eapply swap_in_fetch_membership.
  - apply shelf_history_on_disk in Hs as [? ?]. by apply ok_same.
Qed.

Lemma register_expert_membership k g u d m p s o s' :
  register_expert k g u d m p s = (o, s') ->
  membership_ok (RegisterExpert k g u d m p) s s'.
Proof.
  unfold register_expert. unfold_steps. fields.
  destruct (Dict.mem k (memory_cache s)); cbv beta; fields;
    rewrite mem_set_eq; destruct p; intros [= <- <-].
  - apply (ok_store _ _ _ k [StoreIssued k; Promoted k]);
      [done|done| |right; eauto].
    intros k'. rewrite !elem_of_cons, elem_of_nil. naive_solver.
  - apply (ok_quiet _ _ _ [Promoted k]); [done|done|not_issued].
  - apply (ok_store _ _ _ k [StoreIssued k; Promoted k; Inserted k]);
      [done|done| |right; eauto].
    intros k'. rewrite !elem_of_cons, elem_of_nil. naive_solver.
  - apply (ok_quiet _ _ _ [Promoted k; Inserted k]); [done|done|not_issued].
Qed.

Lemma swap_out_membership k s o s' :
  swap_out k s = (o, s') -> membership_ok (SwapOut k) s s'.
Proof.
  unfold swap_out. unfold_steps.
  destruct (Dict.get k (memory_cache s)) as [[e|]|]; cbv beta;
    [destruct (writable k (disk s))| |]; intros [= <- <-].
  - apply (ok_store _ _ _ k [Dropped k; StoreIssued k]); [done|done| |by left].
    intros k'. rewrite !elem_of_cons, elem_of_nil. naive_solver.
  - by apply ok_same.
  - by apply ok_same.
  - by apply ok_same.
Qed.

Lemma unregister_expert_membership k s o s' :
  unregister_expert k s = (o, s') -> membership_ok (UnregisterExpert k) s s'.
Proof.
  unfold unregister_expert. unfold_steps.
  destruct (Dict.mem k (memory_cache s)); cbv beta; fields;
    (destruct (bool_decide (k ∈ on_disk s)); cbv beta; fields;
     [destruct (disk s !! k)|]); intros [= <- <-].
  - apply (ok_forget _ _ _ [Dropped k]); [done|done|not_issued].
  - apply (ok_quiet _ _ _ [Dropped k]); [done|done|not_issued].
  - apply (ok_quiet _ _ _ [Dropped k]); [done|done|not_issued].
  - apply (ok_forget _ _ _ []); [done|done|not_issued].
  - by apply ok_same.
  - by apply ok_same.
Qed.

Lemma flush_one_shelf k s : shelf (flush_one k s).2 = shelf s.
Proof.
  unfold flush_one. unfold_steps.
  destruct (Dict.get k (pending_ops s)) as [h|]; [|done].
  destruct (is_done h s); [done|].
  destruct (future_result h s) as [[v|e|] s1] eqn:E;
    by apply future_result_book, book_shelf in E as [E _].
Qed.

Lemma flush_keys_shelf ks s : shelf (flush_keys ks s).2 = shelf s.
Proof.
  revert s. induction ks as [|k ks IH]; intros s; [done|].
  cbn [flush_keys]. unfold bind.
  pose proof (flush_one_shelf k s) as H1.
  destruct (flush_one k s) as [[[]|e|] s1]; simpl in H1; [|done|done].
  by rewrite IH.
Qed.

Lemma flush_shelf s : shelf (flush s).2 = shelf s.
Proof. unfold flush, bind, gets. apply flush_keys_shelf. Qed.

(** C3, amended.  For every call, from every state: an id's store is
    issued only by an eviction of it, by [swap_out] or by
    [register_expert] with [persist]; every id whose store the call
    issues is in the on-disk set afterwards, and an id that is new in the
    set had its store issued by the call.  An id leaves the set only when
    the call is [unregister_expert] of it, or a synchronous [swap_in] or
    [get_expert] of it that read its record from disk. *)
Theorem on_disk_membership c s o s' :
  exec c s = (o, s') -> membership_ok c s s'.
Proof.
  destruct c as [k b|k|k t|k g u d m p|k| |]; unfold exec.
  - destruct (swap_in k b s) as [o1 s1] eqn:E. intros H.
    assert (s' = s1) as -> by (destruct o1; by injection H).
    eapply swap_in_membership; [done|]. intros ->. by left.
  - apply swap_out_membership.
  - destruct (get_expert k t s) as [o1 s1] eqn:E. intros H.
    assert (s' = s1) as -> by (destruct o1; by injection H).
    apply get_expert_phases in E as [[Ho [Hh|[Hh|Hh]]]|[o2 E]].
    + by apply ok_same.
    + apply (ok_quiet _ _ _ [Inserted k]); [done|done|not_issued].
    + apply (ok_quiet _ _ _ [Promoted k]); [done|done|not_issued].
    + eapply swap_in_membership; [done|]. intros _. right. eauto.
  - apply register_expert_membership.
  - apply unregister_expert_membership.
  - intros H. pose proof (flush_shelf s) as Hs. rewrite H in Hs.
    apply shelf_history_on_disk in Hs as [? ?]. by apply ok_same.
  - intros [= <- <-].
    destruct (book_shelf _ _ (worker_step_book s)) as [Hs _].
    apply shelf_history_on_disk in Hs as [? ?]. by apply ok_same.
Qed.

(** ** Recency *)

Lemma filter_all {A} (P : A -> Prop) `{forall x, Decision (P x)} (l : list A) :
  (forall x, x ∈ l -> P x) -> filter P l = l.
Proof.
  induction l as [|a l IH]; intros Hall; [done|].
  rewrite filter_cons_True by (apply Hall; left).
  f_equal. apply IH. intros x Hx. apply Hall. by right.
Qed.

Lemma StronglySorted_filter_impl {A} (R R' : A -> A -> Prop) (P : A -> Prop)
    `{forall x, Decision (P x)} (l : list A) :
  (forall x y, P x -> P y -> R x y -> R' x y) ->
  StronglySorted R l -> StronglySorted R' (filter P l).
Proof.
  intros Himpl. induction 1 as [|a l Hl IH Hall]; [constructor|].
  destruct (decide (P a)) as [Ha|Ha].
  - rewrite filter_cons_True by done. constructor; [done|].
    rewrite Forall_forall in *.
    intros y [Hy Hin]%list_elem_of_filter. apply Himpl; auto.
  - by rewrite filter_cons_False.
Qed.

Lemma recency_NoDup h : NoDup (recency h).
Proof.
  induction h as [|[k|k|k|k|k|k] h IH]; simpl; try done.
  - constructor.
  - apply NoDup_app. split; [by apply NoDup_filter|]. split.
    + intros x [Hx _]%list_elem_of_filter ->%list_elem_of_singleton. done.
    + apply NoDup_singleton.
  - apply NoDup_app. split; [by apply NoDup_filter|]. split.
    + intros x [Hx _]%list_elem_of_filter ->%list_elem_of_singleton. done.
    + apply NoDup_singleton.
  - by apply NoDup_filter.
  - by apply NoDup_filter.
Qed.

Lemma recency_touch h k :
  (forall y, y ∈ recency h <-> is_Some (stamps h !! y)) ->
  (forall y n, stamps h !! y = Some n -> (n < length h)%nat) ->
  StronglySorted (before h) (recency h) ->
  (forall y, y ∈ filter (λ x, x ≠ k) (recency h) ++ [k]
     <-> is_Some (<[k := length h]> (stamps h) !! y))
  /\ (forall y n, <[k := length h]> (stamps h) !! y = Some n
        -> (n < S (length h))%nat)
  /\ forall R',
      (forall x y, R' x y <->
         exists n m, <[k := length h]> (stamps h) !! x = Some n
           /\ <[k := length h]> (stamps h) !! y = Some m /\ (n < m)%nat) ->
      StronglySorted R' (filter (λ x, x ≠ k) (recency h) ++ [k]).
Proof.
  intros Hdom Hb Hs. split; [|split].
  - intros y. rewrite elem_of_app, list_elem_of_filter, list_elem_of_singleton.
    rewrite Hdom. destruct (decide (k = y)) as [->|Hne].
    + rewrite lookup_insert_eq. split; [by eauto|auto].
    + rewrite lookup_insert_ne by done. split; [intros [[_ ?]|?]; [done|congruence]|].
      intros ?. left. split; [congruence|done].
  - intros y n. destruct (decide (k = y)) as [->|Hne].
    + rewrite lookup_insert_eq. intros [= <-]. lia.
    + rewrite lookup_insert_ne by done. intros ?%Hb. lia.
  - intros R' HR'. apply StronglySorted_app. split; [|split].
    + intros x1 x2 [Hne Hin]%list_elem_of_filter ->%list_elem_of_singleton.
      apply Hdom in Hin as [n Hn]. apply HR'. exists n, (length h).
      rewrite lookup_insert_ne by congruence. rewrite lookup_insert_eq.
      split; [done|]. split; [done|]. by eapply Hb.
    + eapply StronglySorted_filter_impl; [|exact Hs].
      intros x y Hx Hy (n & m & Hn & Hm & Hlt). apply HR'. exists n, m.
      by rewrite !lookup_insert_ne by congruence.
    + repeat constructor.
Qed.

Lemma recency_drop h k :
  (forall y, y ∈ recency h <-> is_Some (stamps h !! y)) ->
  (forall y n, stamps h !! y = Some n -> (n < length h)%nat) ->
  StronglySorted (before h) (recency h) ->
  (forall y, y ∈ filter (λ x, x ≠ k) (recency h)
     <-> is_Some (delete k (stamps h) !! y))
  /\ (forall y n, delete k (stamps h) !! y = Some n -> (n < S (length h))%nat)
  /\ forall R',
      (forall x y, R' x y <->
         exists n m, delete k (stamps h) !! x = Some n
           /\ delete k (stamps h) !! y = Some m /\ (n < m)%nat) ->
      StronglySorted R' (filter (λ x, x ≠ k) (recency h)).
Proof.
  intros Hdom Hb Hs. split; [|split].
  - intros y. rewrite list_elem_of_filter, Hdom.
    destruct (decide (k = y)) as [->|Hne].
    + rewrite lookup_delete_eq. split; [by intros [? _]|by intros [? ?]].
    + rewrite lookup_delete_ne by done. split; [by intros [_ ?]|].
      intros ?. split; [congruence|done].
  - intros y n. destruct (decide (k = y)) as [->|Hne].
    + by rewrite lookup_delete_eq.
    + rewrite lookup_delete_ne by done. intros ?%Hb. lia.
  - intros R' HR'. eapply StronglySorted_filter_impl; [|exact Hs].
    intros x y Hx Hy (n & m & Hn & Hm & Hlt). apply HR'. exists n, m.
    by rewrite !lookup_delete_ne by congruence.
Qed.

(** The stamps and the recency order agree. *)
Lemma recency_facts h :
  (forall y, y ∈ recency h <-> is_Some (stamps h !! y))
  /\ (forall y n, stamps h !! y = Some n -> (n < length h)%nat)
  /\ StronglySorted (before h) (recency h).
Proof.
  induction h as [|ev h (Hdom & Hb & Hs)].
  - split; [|split]; [|done|constructor].
    intros y. simpl. rewrite lookup_empty. split; [by intros ?%elem_of_nil|by intros [? ?]].
  - destruct ev as [k|k|k|k|k|k]; cbn [stamps recency length].
    + destruct (recency_touch h k Hdom Hb Hs) as (H1 & H2 & H3).
      split; [done|]. split; [done|]. by apply H3.
    + destruct (recency_touch h k Hdom Hb Hs) as (H1 & H2 & H3).
      split; [done|]. split; [done|]. by apply H3.
    + destruct (recency_drop h k Hdom Hb Hs) as (H1 & H2 & H3).
      split; [done|]. split; [done|]. by apply H3.
    + destruct (recency_drop h k Hdom Hb Hs) as (H1 & H2 & H3).
      split; [done|]. split; [done|]. by apply H3.
    + split; [done|]. split; [|done]. intros y n ?%Hb. lia.
    + split; [done|]. split; [|done]. intros y n ?%Hb. lia.
Qed.

(** The head of the recency order is the least recently touched
    resident. *)
Lemma lru_of_head h x : head (recency h) = Some x -> lru_victim h x.
Proof.
  intros [l Hl]%head_Some.
  destruct (recency_facts h) as (Hdom & _ & Hs). rewrite Hl in Hdom, Hs.
  apply StronglySorted_cons in Hs as [Hall _]. rewrite Forall_forall in Hall.
  destruct (proj1 (Hdom x)) as [n Hn]; [left|].
  exists n. split; [done|]. intros y m Hm.
  assert (y ∈ x :: l) as [->|Hin]%elem_of_cons by (apply Hdom; eauto).
  - assert (n = m) by congruence. lia.
  - destruct (Hall _ Hin) as (n' & m' & Hn' & Hm' & Hlt).
    assert (n = n' /\ m = m') as [-> ->] by (split; congruence). lia.
Qed.

(** *** The cache follows the recency order *)

Lemma evictions_head_cons ev h :
  evictions_head h ->
  (forall x, ev = Evicted x -> head (recency h) = Some x) ->
  evictions_head (ev :: h).
Proof.
  intros Hh Hev [|ev' newer] x older; simpl.
  - intros [= -> ->]. by apply Hev.
  - intros [= -> ->]. by eapply Hh.
Qed.

Lemma lru_inv_shelf s s' : shelf s' = shelf s -> lru_inv s -> lru_inv s'.
Proof. unfold shelf, lru_inv. intros [= _ _ -> _ _ ->]. done. Qed.

Lemma preserves_ret {A} P (a : A) : preserves P (ret a).
Proof. by intros s. Qed.

Lemma preserves_raise {A} P e : preserves P (@raise A e).
Proof. by intros s. Qed.

Lemma preserves_gets {A} P (f : Swapper -> A) : preserves P (gets f).
Proof. by intros s. Qed.

Lemma preserves_bind {A B} P (m : M A) (f : A -> M B) :
  preserves P m -> (forall a, preserves P (f a)) -> preserves P (bind m f).
Proof.
  intros Hm Hf s Hs. unfold bind. specialize (Hm s Hs).
  destruct (m s) as [[a|e|] s1]; simpl in *; [by apply Hf|done|done].
Qed.

Lemma lru_inv_cache_set k v : preserves lru_inv (cache_set k v).
Proof.
  intros s [Hk He]. unfold_steps. fields.
  destruct (Dict.mem k (memory_cache s)) eqn:Hm; cbv beta; fields.
  - split; [|done]. simpl. by rewrite DictFacts.keys_set_mem.
  - apply DictFacts.mem_false in Hm. split; simpl.
    + rewrite (DictFacts.set_fresh _ _ _ Hm), DictFacts.keys_app, Hk.
      rewrite filter_all; [done|].
      intros x Hx ->. rewrite <- Hk in Hx.
      by apply DictFacts.get_None in Hm.
    + by apply evictions_head_cons.
Qed.

Lemma lru_inv_cache_move_to_end k : preserves lru_inv (cache_move_to_end k).
Proof.
  intros s [Hk He]. unfold_steps. fields.
  destruct (Dict.mem k (memory_cache s)) eqn:Hm; cbv beta; fields; [|done].
  split; simpl.
  - unfold Dict.move_to_end, Dict.mem in *.
    destruct (Dict.get k (memory_cache s)) as [v|]; [|done].
    by rewrite DictFacts.keys_app, DictFacts.keys_del, Hk.
  - by apply evictions_head_cons.
Qed.

Lemma lru_inv_cache_del k : preserves lru_inv (cache_del k).
Proof.
  intros s [Hk He]. unfold_steps. fields. split; simpl.
  - by rewrite DictFacts.keys_del, Hk.
  - by apply evictions_head_cons.
Qed.

Lemma lru_inv_emit ev :
  match ev with StoreIssued _ | DiskRead _ => True | _ => False end ->
  preserves lru_inv (emit ev).
Proof.
  intros Hev s [Hk He]. unfold_steps. fields.
  destruct ev; try done; (split; simpl; [done|by apply evictions_head_cons]).
Qed.

Lemma lru_inv__swap_out_lru : preserves lru_inv _swap_out_lru.
Proof.
  intros s [Hk He].
  destruct (memory_cache s) as [|[k v] rest] eqn:Hc.
  - rewrite (_swap_out_lru_nil _ Hc). simpl. split; [by rewrite Hc|done].
  - rewrite (_swap_out_lru_cons _ _ _ _ Hc). simpl in *. split; simpl.
    + rewrite <- Hk. rewrite filter_cons_False by naive_solver.
      symmetry. apply filter_all. intros x Hx ->.
      pose proof (recency_NoDup (history s)) as Hnd.
      rewrite <- Hk in Hnd. by apply NoDup_cons in Hnd as [? _].
    + apply evictions_head_cons; [|done].
      apply evictions_head_cons; [done|].
      intros x [= <-]. by rewrite <- Hk.
Qed.

Lemma lru_inv_reserve_loop fuel limit : preserves lru_inv (reserve_loop fuel limit).
Proof.
  induction fuel as [|fuel IH]; intros s Hs; cbn [reserve_loop];
    destruct (limit <=? Z.of_nat (length (memory_cache s))); try done.
  by apply (preserves_bind _ _ _ lru_inv__swap_out_lru (fun _ => IH)).
Qed.

Lemma lru_inv_reserve limit : preserves lru_inv (reserve limit).
Proof. intros s. unfold reserve. apply lru_inv_reserve_loop. Qed.

Lemma lru_inv_future_result h : preserves lru_inv (future_result h).
Proof.
  intros s Hs. destruct (future_result h s) as [o s1] eqn:E.
  apply future_result_book, book_shelf in E as [E _].
  by eapply lru_inv_shelf.
Qed.

(** Steps that touch neither the cache nor the history. *)
Lemma lru_inv_modify f :
  (forall s, memory_cache (f s) = memory_cache s) ->
  (forall s, history (f s) = history s) ->
  preserves lru_inv (modify f).
Proof.
  intros Hc Hh s Hs. unfold modify, lru_inv. simpl. by rewrite Hc, Hh.
Qed.

Lemma lru_inv_submit t : preserves lru_inv (submit t).
Proof. by intros s Hs. Qed.

Ltac lru_step :=
  first
    [ apply preserves_ret | apply preserves_raise | apply preserves_gets
    | apply lru_inv_cache_set | apply lru_inv_cache_move_to_end
    | apply lru_inv_cache_del | apply lru_inv__swap_out_lru
    | apply lru_inv_reserve | apply lru_inv_future_result
    | apply lru_inv_submit
    | apply lru_inv_emit; exact I
    | apply lru_inv_modify; [done|done]
    | apply preserves_bind; [|intros ?]
    | match goal with
      | |- preserves _ (match ?x with _ => _ end) => destruct x
      end ].

Ltac lru_steps :=
  unfold pending_set, pending_del, on_disk_add, on_disk_discard,
    record_access, future_done, slice3, take_future;
  repeat lru_step.

Lemma lru_inv_swap_in_fetch k b : preserves lru_inv (swap_in_fetch k b).
Proof. unfold swap_in_fetch. lru_steps. Qed.

Lemma lru_inv_swap_in k b : preserves lru_inv (swap_in k b).
Proof. unfold swap_in. lru_steps; apply lru_inv_swap_in_fetch. Qed.

Lemma lru_inv_swap_out k : preserves lru_inv (swap_out k).
Proof. unfold swap_out. lru_steps. Qed.

Lemma lru_inv_get_expert k t : preserves lru_inv (get_expert k t).
Proof.
  unfold get_expert. cbv zeta. lru_steps; try apply lru_inv_swap_in; lru_steps.
Qed.

Lemma lru_inv_register_expert k g u d m p :
  preserves lru_inv (register_expert k g u d m p).
Proof. unfold register_expert. cbv zeta. lru_steps. Qed.

Lemma lru_inv_unregister_expert k : preserves lru_inv (unregister_expert k).
Proof. unfold unregister_expert. lru_steps. Qed.

Lemma lru_inv_exec c : preserves lru_inv (exec c).
Proof.
  intros s Hs. destruct c as [k b|k|k t|k g u d m p|k| |]; unfold exec.
  - pose proof (lru_inv_swap_in k b s Hs).
    by destruct (swap_in k b s) as [[?|?|] ?].
  - by apply lru_inv_swap_out.
  - pose proof (lru_inv_get_expert k t s Hs).
    by destruct (get_expert k t s) as [[?|?|] ?].
  - by apply lru_inv_register_expert.
  - by apply lru_inv_unregister_expert.
  - eapply lru_inv_shelf; [apply flush_shelf|done].
  - simpl. eapply lru_inv_shelf; [|done].
    by destruct (book_shelf _ _ (worker_step_book s)).
Qed.

Lemma lru_inv_init mx pf storage : lru_inv (init mx pf storage).
Proof. split; [done|]. by intros [|??] ??. Qed.

Lemma lru_inv_run cs s s' : lru_inv s -> run cs s = Some s' -> lru_inv s'.
Proof.
  revert s. induction cs as [|c cs IH]; intros s Hs; simpl.
  - by intros [= <-].
  - pose proof (lru_inv_exec c s Hs) as H1.
    destruct (exec c s) as [[[]|e|] s1]; simpl in H1; [|  |done]; by apply IH.
Qed.

(** C5.  Along every run from a fresh Swapper (calls with any arguments,
    the worker stepping in between), each eviction recorded in the
    history took the id that, among the ids resident just before it, had
    been inserted or promoted longest ago.  The ids the history counts as
    resident are exactly the keys of the cache. *)
Theorem eviction_is_least_recently_used cs mx pf storage s :
  run cs (init mx pf storage) = Some s ->
  (forall newer x older,
     history s = newer ++ Evicted x :: older -> lru_victim older x)
  /\ (forall y, y ∈ Dict.keys (memory_cache s)
        <-> is_Some (stamps (history s) !! y)).
Proof.
  intros Hrun.
  destruct (lru_inv_run _ _ _ (lru_inv_init mx pf storage) Hrun) as [Hk He].
  split.
  - intros newer x older Hh. by apply lru_of_head, (He newer).
  - intros y. rewrite Hk. apply recency_facts.
Qed.

(** ** Scenarios *)

(** C2.  Capacity 2; A, B and C registered, written to disk and out of
    the cache.  After three synchronous swap-ins the residents are B and
    C, and A's write-back is queued.  Once the worker has written A back,
    [get_expert(A)] takes the finished save future for a load: it stores
    the save's [True] in the cache, reads nothing from disk and fails on
    [True[:3]], leaving three residents.  Only if the write-back has not
    run yet does the call fall back to the disk read the scenario
    expects. *)
Theorem eviction_scenario_get_after_write_back :
  exists s0 s3 h,
    run persist_all (init 2 2 ∅) = Some s0
    /\ residents s0 = [] /\ pending_ops s0 = []
    /\ disk s0 = store
    /\ run [SwapIn "A" false; SwapIn "B" false; SwapIn "C" false] s0 = Some s3
    /\ residents s3 = ["B"; "C"]
    /\ pending_ops s3 = [("A", h)]
    /\ executor s3 !! h = Some (Future (SaveTask "A" (VTuple eA)) None)
    /\ is_done h (worker_step s3) = true
    /\ disk (worker_step s3) !! "A" = Some eA
    /\ (get_expert "A" None (worker_step s3)).1 = Raise TypeError
    /\ memory_cache (get_expert "A" None (worker_step s3)).2
       = [("B", VTuple eB); ("C", VTuple eC); ("A", VTrue)]
    /\ reads (get_expert "A" None (worker_step s3)).2 = reads s3
    /\ (get_expert "A" None s3).1 = Ret (gate eA, up eA, down eA)
    /\ residents (get_expert "A" None s3).2 = ["C"; "A"].
Proof.
  eexists _, _, _. split; [vm_compute; reflexivity|].
  split; [by vm_compute|]. split; [by vm_compute|]. split; [by vm_compute|].
  split; [vm_compute; reflexivity|]. by vm_compute.
Qed.

(** C1.  Capacity 1, starting from an empty Swapper, synchronous calls
    only.  [swap_in(A)], [swap_in(B)] evicts A; after the worker has
    written A back, [get_expert(A)] puts the save future's result in the
    cache without making room, and the following [get_expert(B)]
    returns normally with two residents. *)
Theorem capacity_exceeded_after_write_back :
  exists s, run [SwapIn "A" false; SwapIn "B" false; WorkerStep;
                 GetExpert "A" None] (init 1 2 store) = Some s
    /\ residents s = ["B"; "A"]
    /\ (get_expert "B" None s).1 = Ret (gate eB, up eB, down eB)
    /\ length (memory_cache (get_expert "B" None s).2) = 2%nat
    /\ max_memory (get_expert "B" None s).2 = 1.
Proof. eexists. split; [vm_compute; reflexivity|]. by vm_compute. Qed.

(** C8.  Register X, swap it out, swap it back in (which takes X off the
    on-disk set while its file stays), then unregister X: the file is
    not removed, and a synchronous [swap_in(X)] returns X's record instead
    of raising [FileNotFoundError]. *)
Theorem unregister_leaves_reloaded_expert_on_disk :
  exists s, run [RegisterExpert "X" (gate eA) (up eA) (down eA) (metadata eA) true;
                 SwapOut "X"; SwapIn "X" false; UnregisterExpert "X"]
              (init 8 2 ∅) = Some s
    /\ residents s = []
    /\ elements (on_disk s) = []
    /\ disk s !! "X" = Some eA
    /\ (swap_in "X" false s).1 = Ret (Some (VTuple eA)).
Proof. eexists. split; [vm_compute; reflexivity|]. by vm_compute. Qed.

(** C9.  With capacity 1 the background reservation limit is 0: the loop
    of lines 99-100 can never finish, whatever fuel it is given, and
    [swap_in(X, background=True)] on a fresh Swapper does not return. *)
Theorem swap_in_background_hangs_at_capacity_one :
  (swap_in "X" true (init 1 2 store)).1 = Hang
  /\ forall fuel s, max_memory s = 1 ->
       (reserve_loop fuel (max_memory s - 1) s).1 = Hang.
Proof.
  split; [by vm_compute|].
  intros fuel s ->. by apply reserve_hangs.
Qed.

(** ** A finished save future taken for a load *)

Lemma future_result_finished h s t v :
  executor s !! h = Some (Future t (Some (Done v))) ->
  future_result h s = (Ret v, s).
Proof.
  intros Hx. unfold future_result.
  assert (is_done h s = true) as -> by (unfold is_done; by rewrite Hx).
  by rewrite Hx.
Qed.

(** X19.  Whatever the capacity: when the id is not resident and its
    pending future is a save that has completed, [get_expert] appends the
    save's [True] to the cache, drops the pending entry and raises
    [TypeError]. *)
Lemma get_expert_takes_save_future s k h data t :
  Dict.mem k (memory_cache s) = false ->
  Dict.get k (pending_ops s) = Some h ->
  executor s !! h = Some (Future (SaveTask k data) (Some (Done VTrue))) ->
  (get_expert k t s).1 = Raise TypeError
  /\ memory_cache (get_expert k t s).2 = memory_cache s ++ [(k, VTrue)]
  /\ Dict.get k (pending_ops (get_expert k t s).2) = None.
Proof.
  intros Hm Hp Hx. unfold get_expert, take_future.
  unfold_steps. rewrite Hm, Hp.
  assert (is_done h s = true) as -> by (unfold is_done; by rewrite Hx).
  rewrite (future_result_finished _ _ _ _ Hx). fields. rewrite Hm.
  cbv beta. fields.
  apply DictFacts.mem_false in Hm.
  rewrite (DictFacts.set_fresh _ _ _ Hm).
  split; [done|]. split; [done|]. apply DictFacts.get_del_eq.
Qed.

(** ** Where the bound is enforced *)

(** A synchronous [swap_in] never takes the cache over the capacity: it
    makes room before it loads. *)
Lemma swap_in_sync_keeps_capacity k s o s' :
  swap_in k false s = (o, s') ->
  Z.of_nat (length (memory_cache s)) <= max_memory s ->
  Z.of_nat (length (memory_cache s')) <= max_memory s'.
Proof.
  intros (s1 & Hs & H)%swap_in_phases Hle.
  assert (memory_cache s1 = memory_cache s /\ max_memory s1 = max_memory s)
    as [Hc Hm] by (unfold shelf in Hs; split; congruence).
  destruct H as [H | ->]; [|by rewrite Hc, Hm].
  apply swap_in_fetch_sync in H
    as [(_ & _ & ->)|(_ & out & s2 & Hev & Hcases)].
  - simpl. pose proof (DictFacts.length_move_to_end (memory_cache s1) k).
    rewrite Hc in *. lia.
  - pose proof (ev_cache _ _ _ Hev) as Hcache.
    pose proof (ev_max _ _ _ Hev) as Hmax. simpl in Hcache, Hmax.
    assert (length (memory_cache s2) <= length (memory_cache s))%nat as Hlen.
    { rewrite <- Hc, Hcache, length_app. lia. }
    destruct Hcases as [(_ & _ & ->)|(Hlt & [(_ & _ & ->)|(e & _ & _ & ->)])].
    + lia.
    + lia.
    + simpl. rewrite length_app. simpl. lia.
Qed.

(** [unregister_expert] only removes the file of an id that is in the
    on-disk set. *)
Lemma unregister_expert_unmarked k s :
  k ∉ on_disk s ->
  (unregister_expert k s).1 = Ret tt /\ disk (unregister_expert k s).2 = disk s.
Proof.
  intros Hk. unfold unregister_expert. unfold_steps.
  destruct (Dict.mem k (memory_cache s)); cbv beta; fields;
    rewrite bool_decide_eq_false_2 by done; done.
Qed.

(** ** Instances and counterexamples *)


Lemma get_expert_timeout_keeps_state_witness :
  Dict.mem "A" (memory_cache s_loading) = false
  /\ Dict.get "A" (pending_ops s_loading) = Some 0%nat
  /\ is_done 0 s_loading = false
  /\ get_expert "A" (Some false) s_loading = (Raise TimeoutError, s_loading).
Proof.
  assert (Dict.mem "A" (memory_cache s_loading) = false) as H1
    by (vm_compute; reflexivity).
  assert (Dict.get "A" (pending_ops s_loading) = Some 0%nat) as H2
    by (vm_compute; reflexivity).
  assert (is_done 0 s_loading = false) as H3 by (vm_compute; reflexivity).
  split; [exact H1|]. split; [exact H2|]. split; [exact H3|].
  exact (get_expert_timeout_keeps_state s_loading "A" 0%nat H1 H2 H3).
Defined.

(** C7 as stated fails for a resident id: right after
    [register_expert(X)] its save is pending and not done, yet
    [get_expert(X, timeout)] answers from the cache whatever the
    deadline. *)
Lemma get_expert_resident_ignores_timeout :
  ~ (forall s expert_id h,
       Dict.get expert_id (pending_ops s) = Some h ->
       is_done h s = false ->
       (get_expert expert_id (Some false) s).1 = Raise TimeoutError).
Proof.
  intros H. specialize (H s_registered "X" 0%nat).
  assert ((get_expert "X" (Some false) s_registered).1
          = Ret (gate eA, up eA, down eA)) as E by (vm_compute; reflexivity).
  rewrite E in H. discriminate H; vm_compute; reflexivity.
Qed.

Lemma swap_in_sync_keeps_pending_entry_witness :
  Dict.get "A" (pending_ops s_loading) = Some 0%nat
  /\ executor s_loading !! 0%nat = Some (Future (LoadTask "A") None)
  /\ exists o s', swap_in "A" false s_loading = (o, s')
       /\ Dict.get "A" (pending_ops s') = Some 0%nat
       /\ is_done 0 s' = true
       /\ (1 <= max_memory s_loading -> o ≠ Hang).
Proof.
  assert (Dict.get "A" (pending_ops s_loading) = Some 0%nat) as H1
    by (vm_compute; reflexivity).
  assert (executor s_loading !! 0%nat = Some (Future (LoadTask "A") None)) as H2
    by (vm_compute; reflexivity).
  split; [exact H1|]. split; [exact H2|].
  exact (swap_in_sync_keeps_pending_entry s_loading "A" 0%nat (LoadTask "A") H1 H2).
Defined.



Lemma eviction_is_least_recently_used_witness :
  run [SwapIn "A" false; SwapIn "B" false; SwapIn "C" false] (init 2 2 store)
    = Some s_evicted
  /\ (forall newer x older,
        history s_evicted = newer ++ Evicted x :: older -> lru_victim older x)
  /\ (forall y, y ∈ Dict.keys (memory_cache s_evicted)
        <-> is_Some (stamps (history s_evicted) !! y)).
Proof.
  assert (run [SwapIn "A" false; SwapIn "B" false; SwapIn "C" false]
            (init 2 2 store) = Some s_evicted) as H
    by (vm_compute; reflexivity).
  split; [exact H|].
  exact (eviction_is_least_recently_used _ 2 2 store s_evicted H).
Defined.

Lemma on_disk_membership_witness :
  exec (SwapIn "X" false) s_swapped_out
    = (Ret tt, (exec (SwapIn "X" false) s_swapped_out).2)
  /\ membership_ok (SwapIn "X" false) s_swapped_out
       (exec (SwapIn "X" false) s_swapped_out).2.
Proof.
  assert (exec (SwapIn "X" false) s_swapped_out
          = (Ret tt, (exec (SwapIn "X" false) s_swapped_out).2)) as H
    by (vm_compute; reflexivity).
  split; [exact H|].
  exact (on_disk_membership (SwapIn "X" false) s_swapped_out (Ret tt)
           (exec (SwapIn "X" false) s_swapped_out).2 H).
Defined.

(** C3 as stated fails: a synchronous [swap_in] of an id that is in the
    on-disk set takes it out (line 124), and it is not an
    [unregister_expert]. *)
Lemma swap_in_takes_id_off_on_disk :
  ~ (forall c s o s' k,
       exec c s = (o, s') -> k ∈ on_disk s -> k ∉ on_disk s' ->
       c = UnregisterExpert k).
Proof.
  intros H.
  specialize (H (SwapIn "X" false) s_swapped_out (Ret tt)
                (exec (SwapIn "X" false) s_swapped_out).2 "X").
  assert (SwapIn "X" false = UnregisterExpert "X") as E; [|discriminate E].
  apply H.
  - vm_compute; reflexivity.
  - apply (bool_decide_eq_true_1 ("X" ∈ on_disk s_swapped_out)).
    vm_compute. reflexivity.
  - apply (bool_decide_eq_false_1
             ("X" ∈ on_disk (exec (SwapIn "X" false) s_swapped_out).2)).
    vm_compute. reflexivity.
Qed.

(** * Further properties of the methods *)

(** ** What a synchronous [swap_in] returns *)

Lemma swap_in_sync_phases k s o s' :
  swap_in k false s = (o, s') ->
  exists s1, shelf s1 = shelf s
    /\ (swap_in_fetch k false s1 = (o, s')
        \/ s' = s1 /\ ((exists e, o = Raise e) \/ o = Hang)).
Proof.
  unfold swap_in. unfold_steps.
  destruct (Dict.get k (pending_ops s)) as [h|]; [|by exists s; auto].
  destruct (is_done h s); cbn [negb].
  - intros H. eexists. split; [|left; exact H]. done.
  - destruct (future_result h s) as [[v|e|] s1] eqn:E;
      apply future_result_book, book_shelf in E as [E _];
      intros H; exists s1; (split; [done|]).
    + by left.
    + right. injection H as <- <-. eauto.
    + right. injection H as <- <-. eauto.
Qed.

Lemma swap_in_fetch_sync_resident k s v s' :
  swap_in_fetch k false s = (Ret (Some v), s') ->
  Dict.get k (memory_cache s') = Some v
  /\ last (Dict.keys (memory_cache s')) = Some k.
Proof.
  intros H. apply swap_in_fetch_sync in H
    as [(Hm & Hv & ->)|(Hm & out & s2 & Hev & Hcases)].
  - injection Hv as Hv. simpl. split.
    + by apply DictFacts.get_move_to_end_eq.
    + unfold Dict.move_to_end. rewrite <- Hv, DictFacts.keys_app.
      apply last_snoc.
  - destruct (evicted_fresh _ _ _ k Hev Hm) as [_ Hget].
    destruct Hcases as [(? & _)|(_ & [(_ & ? & _)|(e & _ & Hv & ->)])];
      [done|done|].
    injection Hv as ->. simpl. split.
    + rewrite DictFacts.get_app_fresh, Hget. by rewrite String.eqb_refl.
    + rewrite DictFacts.keys_app. apply last_snoc.
Qed.

Lemma swap_in_fetch_sync_not_none k s s' :
  swap_in_fetch k false s ≠ (Ret None, s').
Proof.
  intros H. apply swap_in_fetch_sync in H
    as [(Hm & Hv & _)|(_ & out & s2 & _ & [(? & _)|(_ & [(_ & ? & _)|(e & _ & ? & _)])])];
    try done.
  injection Hv as Hv. unfold Dict.mem in Hm. by rewrite <- Hv in Hm.
Qed.

(** X1.  A synchronous [swap_in] never returns [None]; when it returns
    a record, the id is resident with that record and is the most
    recently used key. *)
Theorem swap_in_sync_returns_resident k s o s' :
  swap_in k false s = (o, s') ->
  o ≠ Ret None
  /\ forall v, o = Ret (Some v) ->
       Dict.get k (memory_cache s') = Some v
       /\ last (Dict.keys (memory_cache s')) = Some k.
Proof.
  intros (s1 & Hs & [H|[-> Ho]])%swap_in_sync_phases.
  - split.
    + intros ->. by eapply swap_in_fetch_sync_not_none.
    + intros v ->. by eapply swap_in_fetch_sync_resident.
  - split; [by destruct Ho as [[e ->]| ->]|].
    intros v ->. by destruct Ho as [[e ?]|?].
Qed.

(** X2.  A synchronous [swap_in] that loads an id which was not resident
    leaves the cache within its capacity, however many entries
    registration had put there before. *)
Theorem swap_in_sync_restores_capacity k s v s' :
  Dict.mem k (memory_cache s) = false ->
  swap_in k false s = (Ret (Some v), s') ->
  within_capacity s'.
Proof.
  intros Hm (s1 & Hs & [H|[_ [[e ?]|?]]])%swap_in_sync_phases; [|done|done].
  assert (memory_cache s1 = memory_cache s /\ max_memory s1 = max_memory s)
    as [Hc Hmax] by (unfold shelf in Hs; split; congruence).
  apply swap_in_fetch_sync in H
    as [(Hm1 & _)|(_ & out & s2 & Hev & Hcases)]; [congruence|].
  pose proof (ev_max _ _ _ Hev) as Hmax2. simpl in Hmax2.
  destruct Hcases as [(? & _)|(Hlt & [(_ & ? & _)|(e & _ & _ & ->)])];
    [done|done|].
  unfold within_capacity. simpl. rewrite length_app. simpl. lia.
Qed.

(** ** Capacity along runs without [register_expert] and [get_expert] *)

Lemma within_capacity_shelf s s' :
  shelf s' = shelf s -> within_capacity s -> within_capacity s'.
Proof. unfold shelf, within_capacity. intros [= -> _ -> _ _ _]. done. Qed.

Lemma swap_in_background_capacity k s :
  within_capacity s -> within_capacity (swap_in k true s).2.
Proof.
  intros Hcap. destruct (swap_in k true s) as [o s'] eqn:E. simpl.
  apply swap_in_phases in E as (s1 & Hs & [H| ->]);
    [|by eapply within_capacity_shelf].
  apply (within_capacity_shelf _ _ Hs) in Hcap. unfold within_capacity in *.
  apply swap_in_fetch_background in H
    as [(_ & _ & ->)|(_ & out & s2 & Hev & Hcases)].
  - simpl. pose proof (DictFacts.length_move_to_end (memory_cache s1) k). lia.
  - pose proof (ev_cache _ _ _ Hev) as Hcache.
    pose proof (ev_max _ _ _ Hev) as Hmax. simpl in Hcache, Hmax.
    assert (length (memory_cache s2) <= length (memory_cache s1))%nat as Hlen.
    { rewrite Hcache, length_app. lia. }
    destruct Hcases as [(_ & _ & ->)|(_ & _ & ->)]; simpl; lia.
Qed.

Lemma swap_out_capacity k s :
  within_capacity s -> within_capacity (swap_out k s).2.
Proof.
  unfold within_capacity, swap_out. unfold_steps. intros H.
  destruct (Dict.get k (memory_cache s)) as [[e|]|]; cbv beta;
    [destruct (writable k (disk s))| |]; simpl; try done.
  pose proof (DictFacts.length_del (memory_cache s) k). lia.
Qed.

Lemma unregister_expert_capacity k s :
  within_capacity s -> within_capacity (unregister_expert k s).2.
Proof.
  unfold within_capacity, unregister_expert. unfold_steps. intros H.
  pose proof (DictFacts.length_del (memory_cache s) k).
  destruct (Dict.mem k (memory_cache s)); cbv beta; fields;
    (destruct (bool_decide (k ∈ on_disk s)); cbv beta; fields;
     [destruct (disk s !! k)|]); simpl; lia.
Qed.

Lemma makes_room_capacity c s :
  makes_room c = true ->
  within_capacity s -> within_capacity (exec c s).2.
Proof.
  intros Hc Hcap. destruct c as [k b|k|k t|k g u d m p|k| |];
    try discriminate Hc; unfold exec.
  - destruct b.
    + pose proof (swap_in_background_capacity k s Hcap).
      by destruct (swap_in k true s) as [[?|?|] ?].
    + destruct (swap_in k false s) as [o s'] eqn:E.
      pose proof (swap_in_sync_keeps_capacity _ _ _ _ E Hcap).
      by destruct o.
  - by apply swap_out_capacity.
  - by apply unregister_expert_capacity.
  - eapply within_capacity_shelf; [apply flush_shelf|done].
  - simpl. eapply within_capacity_shelf; [|done].
    by destruct (book_shelf _ _ (worker_step_book s)).
Qed.

(** X3.  Along every run from a fresh Swapper that uses neither
    [register_expert] nor [get_expert] (synchronous and background
    [swap_in], [swap_out], [unregister_expert], [flush], the worker in
    between) the cache never holds more than [max_memory] entries. *)
Theorem capacity_kept_without_register_and_get cs mx pf storage s :
  0 <= mx ->
  forallb makes_room cs = true ->
  run cs (init mx pf storage) = Some s ->
  within_capacity s.
Proof.
  intros Hmx. assert (within_capacity (init mx pf storage)) as Hinit.
  { unfold within_capacity. simpl. lia. }
  revert Hinit. generalize (init mx pf storage). clear Hmx.
  induction cs as [|c cs IH]; intros s0 H0 Hcs; simpl.
  - by intros [= <-].
  - simpl in Hcs. apply andb_prop in Hcs as [Hc Hcs].
    pose proof (makes_room_capacity c s0 Hc H0) as H1.
    destruct (exec c s0) as [[[]|e|] s1]; simpl in H1; [| |done]; by apply IH.
Qed.

(** ** Registration *)

Lemma del_set_eq (c : Dict.t value) k v :
  Dict.del k (Dict.set k v c) = Dict.del k c.
Proof.
  induction c as [|[k' v'] c IH]; simpl.
  - by rewrite String.eqb_refl.
  - destruct (String.eqb_spec k k') as [->|Hne]; simpl.
    + by rewrite String.eqb_refl.
    + destruct (String.eqb_spec k k'); [done|]. by rewrite IH.
Qed.

Lemma register_expert_state k g u d m p s :
  (register_expert k g u d m p s).1 = Ret tt
  /\ memory_cache (register_expert k g u d m p s).2
     = Dict.del k (memory_cache s) ++ [(k, VTuple (Expert g u d m))]
  /\ max_memory (register_expert k g u d m p s).2 = max_memory s.
Proof.
  unfold register_expert. unfold_steps. fields.
  assert (Dict.move_to_end k (Dict.set k (VTuple (Expert g u d m)) (memory_cache s))
          = Dict.del k (memory_cache s) ++ [(k, VTuple (Expert g u d m))]) as E.
  { unfold Dict.move_to_end. by rewrite DictFacts.get_set_eq, del_set_eq. }
  destruct (Dict.mem k (memory_cache s)); cbv beta; fields;
    rewrite mem_set_eq; destruct p; simpl; by rewrite E.
Qed.

(** X4.  [register_expert] evicts nothing, whatever the capacity: the
    other residents stay, in their order, and the id goes last with the
    new record; for an id that was not resident the cache grows by one
    entry. *)
Theorem register_expert_never_evicts k g u d m p s :
  (register_expert k g u d m p s).1 = Ret tt
  /\ memory_cache (register_expert k g u d m p s).2
     = Dict.del k (memory_cache s) ++ [(k, VTuple (Expert g u d m))]
  /\ (Dict.mem k (memory_cache s) = false ->
      length (memory_cache (register_expert k g u d m p s).2)
      = S (length (memory_cache s))).
Proof.
  destruct (register_expert_state k g u d m p s) as (H1 & H2 & _).
  split; [done|]. split; [done|].
  intros Hm%DictFacts.mem_false. rewrite H2, (DictFacts.del_fresh _ _ Hm).
  rewrite length_app. simpl. lia.
Qed.

(** X5.  What [register_expert] stored is what [get_expert] returns:
    after registering an id, with or without [persist], and however far
    the worker has got, [get_expert] (with any timeout) returns the
    three payloads registered, from the cache. *)
Theorem register_then_get_expert k g u d m p t n s :
  (get_expert k t
     (Nat.iter n worker_step (register_expert k g u d m p s).2)).1
  = Ret (g, u, d).
Proof.
  destruct (register_expert_state k g u d m p s) as (_ & Hc & _).
  destruct (book_shelf _ _
              (worker_steps_book n (register_expert k g u d m p s).2))
    as [Hs _].
  set (s1 := Nat.iter n worker_step (register_expert k g u d m p s).2) in *.
  assert (Dict.get k (memory_cache s1) = Some (VTuple (Expert g u d m))) as Hg.
  { assert (memory_cache s1 = memory_cache (register_expert k g u d m p s).2)
      as -> by (unfold shelf in Hs; congruence).
    rewrite Hc, DictFacts.get_app_fresh, DictFacts.get_del_eq.
    by rewrite String.eqb_refl. }
  unfold get_expert. unfold_steps.
  assert (Dict.mem k (memory_cache s1) = true) as Hm
    by (unfold Dict.mem; by rewrite Hg).
  rewrite Hm. cbv beta. rewrite Hm, Hg. done.
Qed.

(** ** Unregistration *)

(** X6.  [unregister_expert] is idempotent: after a call that returned
    normally, a second call for the same id returns normally and changes
    nothing. *)
Theorem unregister_expert_twice k s s1 :
  unregister_expert k s = (Ret tt, s1) ->
  unregister_expert k s1 = (Ret tt, s1).
Proof.
  assert (forall c : Dict.t value, Dict.mem k (Dict.del k c) = false) as Hdel.
  { intros c. unfold Dict.mem. by rewrite DictFacts.get_del_eq. }
  assert (forall o : gset string, bool_decide (k ∈ o ∖ {[k]}) = false) as Hoff.
  { intros o. apply bool_decide_eq_false_2. set_solver. }
  unfold unregister_expert. unfold_steps.
  destruct (Dict.mem k (memory_cache s)) eqn:Hm; cbv beta; fields;
    (destruct (bool_decide (k ∈ on_disk s)) eqn:Hb; cbv beta; fields;
     [destruct (disk s !! k) eqn:Hd|]); intros [= <-]; fields;
    rewrite ?Hdel, ?Hm; cbv beta iota; fields; rewrite ?Hoff, ?Hb; done.
Qed.


(** ** The access history *)

Lemma preserves_modify P f :
  (forall s, P s -> P (f s)) -> preserves P (modify f).
Proof. intros H s Hs. by apply H. Qed.

Lemma access_bounded_record_access k : preserves access_bounded (record_access k).
Proof.
  intros s Hs. unfold record_access, modify, access_bounded in *. simpl.
  destruct (Z.ltb_spec 100 (Z.of_nat (length (access_pattern s ++ [k])))) as [H|H].
  - rewrite length_drop, length_app. simpl. lia.
  - lia.
Qed.

Lemma access_bounded_shelf s s' :
  shelf s' = shelf s -> access_bounded s -> access_bounded s'.
Proof. unfold shelf, access_bounded. intros [= _ _ _ _ -> _]. done. Qed.

Lemma access_bounded_future_result h : preserves access_bounded (future_result h).
Proof.
  intros s Hs. destruct (future_result h s) as [o s1] eqn:E.
  apply future_result_book, book_shelf in E as [E _].
  by eapply access_bounded_shelf.
Qed.

Lemma access_bounded_submit t : preserves access_bounded (submit t).
Proof. by intros s Hs. Qed.

Ltac access_step :=
  first
    [ apply preserves_ret | apply preserves_raise | apply preserves_gets
    | apply access_bounded_record_access
    | apply access_bounded_future_result
    | apply access_bounded_submit
    | apply preserves_modify; intros ? H; exact H
    | apply preserves_bind; [|intros ?]
    | match goal with
      | |- preserves _ (match ?x with _ => _ end) => destruct x
      end ].

Ltac access_steps :=
  unfold take_future;
  unfold cache_set, cache_move_to_end, cache_del, pending_set, pending_del,
    on_disk_add, on_disk_discard, emit, future_done, slice3;
  repeat access_step.

Lemma access_bounded__swap_out_lru : preserves access_bounded _swap_out_lru.
Proof. unfold _swap_out_lru. access_steps. Qed.

Lemma access_bounded_reserve limit : preserves access_bounded (reserve limit).
Proof.
  intros s. unfold reserve. generalize (S (length (memory_cache s))).
  intros fuel. revert s.
  induction fuel as [|fuel IH]; intros s Hs; cbn [reserve_loop];
    destruct (limit <=? Z.of_nat (length (memory_cache s))); try done.
  by apply (preserves_bind _ _ _ access_bounded__swap_out_lru (fun _ => IH)).
Qed.

Lemma access_bounded_swap_in k b : preserves access_bounded (swap_in k b).
Proof.
  unfold swap_in, swap_in_fetch. access_steps; apply access_bounded_reserve.
Qed.

Lemma access_bounded_exec c : preserves access_bounded (exec c).
Proof.
  intros s Hs. destruct c as [k b|k|k t|k g u d m p|k| |]; unfold exec.
  - pose proof (access_bounded_swap_in k b s Hs).
    by destruct (swap_in k b s) as [[?|?|] ?].
  - revert s Hs. unfold swap_out. access_steps.
  - assert (preserves access_bounded (get_expert k t)) as H.
    { unfold get_expert. cbv zeta.
      access_steps;
        first [apply access_bounded_reserve | apply access_bounded_swap_in]. }
    specialize (H s Hs). by destruct (get_expert k t s) as [[?|?|] ?].
  - revert s Hs. unfold register_expert. cbv zeta. access_steps.
  - revert s Hs. unfold unregister_expert. access_steps.
  - eapply access_bounded_shelf; [apply flush_shelf|done].
  - simpl. eapply access_bounded_shelf; [|done].
    by destruct (book_shelf _ _ (worker_step_book s)).
Qed.

(** X8.  Along every run from a fresh Swapper the access history holds
    at most 100 ids. *)
Theorem access_pattern_bounded cs mx pf storage s :
  run cs (init mx pf storage) = Some s -> access_bounded s.
Proof.
  assert (access_bounded (init mx pf storage)) as Hinit
    by (unfold access_bounded; simpl; lia).
  revert Hinit. generalize (init mx pf storage).
  induction cs as [|c cs IH]; intros s0 H0; simpl.
  - by intros [= <-].
  - pose proof (access_bounded_exec c s0 H0) as H1.
    destruct (exec c s0) as [[[]|e|] s1]; simpl in H1; [| |done]; by apply IH.
Qed.

(** ** What [flush] waits for and what it drops *)

Lemma future_result_ret_done h s v s1 :
  future_result h s = (Ret v, s1) ->
  is_done h s1 = true /\ forall j, is_done j s = true -> is_done j s1 = true.
Proof.
  unfold future_result. intros H. split.
  - unfold is_done.
    destruct (executor (if is_done h s then s else await h s) !! h)
      as [[t [[v'|e]|]]|] eqn:E; try done.
    injection H as _ <-. by rewrite E.
  - intros j Hj.
    assert (s1 = if is_done h s then s else await h s) as ->.
    { destruct (executor (if is_done h s then s else await h s) !! h)
        as [[t [[v'|e]|]]|]; by injection H. }
    destruct (is_done h s); [done | by apply is_done_await].
Qed.

Lemma flush_one_done k s s1 :
  flush_one k s = (Ret tt, s1) ->
  (forall h, Dict.get k (pending_ops s) = Some h -> is_done h s1 = true)
  /\ (forall j, is_done j s = true -> is_done j s1 = true).
Proof.
  unfold flush_one. unfold_steps.
  destruct (Dict.get k (pending_ops s)) as [h|]; [|done].
  destruct (is_done h s) eqn:Hd.
  - intros [= <-]. split; [by intros ? [= <-]|done].
  - destruct (future_result h s) as [[v|e|] s2] eqn:E; try done.
    intros [= <-]. apply future_result_ret_done in E as [E1 E2].
    split; [by intros ? [= <-]|]. intros j Hj. by apply E2.
Qed.

Lemma flush_keys_done ks s s' :
  flush_keys ks s = (Ret tt, s') ->
  (forall k h, k ∈ ks -> Dict.get k (pending_ops s) = Some h ->
     is_done h s' = true)
  /\ (forall j, is_done j s = true -> is_done j s' = true).
Proof.
  revert s. induction ks as [|k0 ks IH]; intros s; cbn [flush_keys].
  - intros [= <-]. split; [by intros ?? ?%elem_of_nil|done].
  - unfold bind. destruct (flush_one k0 s) as [[[]|e|] s1] eqn:E; try done.
    intros H. apply IH in H as [H1 H2].
    destruct (flush_one_done _ _ _ E) as [E1 E2].
    apply flush_one_ret in E as [_ Ep].
    split; [|by intros j Hj; apply H2, E2].
    intros k h Hin Hg. destruct (decide (k = k0)) as [->|Hne].
    + by apply H2, E1.
    + apply elem_of_cons in Hin as [?|Hin]; [done|].
      apply (H1 k h Hin). rewrite Ep. by rewrite DictFacts.get_del_ne.
Qed.

(** X9.  [flush] waits for everything that is pending: when it returns
    normally, every future that was in the pending table is done. *)
Theorem flush_waits_for_pending s s' k h :
  flush s = (Ret tt, s') ->
  Dict.get k (pending_ops s) = Some h ->
  is_done h s' = true.
Proof.
  unfold flush, bind, gets. intros H Hg.
  apply flush_keys_done in H as [H _]. apply (H k h); [|done].
  destruct (decide (k ∈ Dict.keys (pending_ops s))) as [|Hn]; [done|].
  apply DictFacts.get_None in Hn. congruence.
Qed.

Lemma flush_keys_all_done ks s :
  NoDup ks ->
  (forall k, k ∈ ks ->
     exists h, Dict.get k (pending_ops s) = Some h /\ is_done h s = true) ->
  flush_keys ks s
  = (Ret tt,
     set_pending_ops (foldl (fun acc k => Dict.del k acc) (pending_ops s) ks) s).
Proof.
  revert s. induction ks as [|k ks IH]; intros s Hnd Hall; cbn [flush_keys foldl].
  - by destruct s.
  - apply NoDup_cons in Hnd as [Hk Hnd].
    destruct (Hall k) as (h & Hg & Hd); [left|].
    assert (flush_one k s
            = (Ret tt, set_pending_ops (Dict.del k (pending_ops s)) s)) as E.
    { unfold flush_one. unfold_steps. by rewrite Hg, Hd. }
    unfold bind. rewrite E. rewrite IH; [done|done|].
    intros k' Hin. destruct (Hall k') as (h' & Hg' & Hd'); [by right|].
    exists h'. split; [|done]. simpl.
    rewrite DictFacts.get_del_ne; [done|]. by intros ->.
Qed.

(** X10.  [flush] does not report the failure of a task that has
    already finished: when every pending future is done, whether its
    task succeeded or failed, [flush] returns normally and only empties
    the pending table. *)
Theorem flush_drops_finished_futures s :
  NoDup (Dict.keys (pending_ops s)) ->
  (forall k h, Dict.get k (pending_ops s) = Some h -> is_done h s = true) ->
  flush s = (Ret tt, set_pending_ops [] s).
Proof.
  intros Hnd Hall. unfold flush, bind, gets.
  rewrite flush_keys_all_done; [by rewrite DictFacts.del_all_keys|done|].
  intros k Hin. destruct (Dict.get k (pending_ops s)) as [h|] eqn:Hg.
  - exists h. split; [done|]. by eapply Hall.
  - by apply DictFacts.get_None in Hg.
Qed.

(** ** A queued save brings the record back *)





(** ** Background loads *)

Lemma first_queued_None fs j t :
  first_queued fs = None -> fs !! j ≠ Some (Future t None).
Proof.
  revert j. induction fs as [|[t' [r|]] fs IH]; intros j; simpl; [done| |done].
  destruct (first_queued fs) eqn:E; [done|]. intros _.
  destruct j as [|j]; simpl; [done|]. by apply IH.
Qed.

Lemma run_task_keeps k t dk :
  ~ writes_to (names dk) k t -> (run_task t dk).2 !! k = dk !! k.
Proof.
  destruct t as [k' [e'|]|k']; simpl; intros H; [|done|by destruct (dk !! k')].
  destruct (writable k' dk); [|done]. simpl.
  apply lookup_write_file_ne. congruence.
Qed.

Lemma run_future_load_pending k e h j s :
  load_pending k e h s -> load_pending k e h (run_future j s).
Proof.
  intros (Hlen & Hh & Hd & Hq).
  destruct (executor s !! j) as [[t [r|]]|] eqn:Ej;
    [rewrite run_future_skip; [done|intros t'; congruence]
    | |rewrite run_future_skip; [done|intros t'; congruence]].
  destruct (run_future_queued _ _ _ Ej) as [Ex Ed].
  assert (j < length (executor s))%nat as Hj by by eapply lookup_lt_Some.
  destruct (decide (j = h)) as [->|Hne].
  - assert (t = LoadTask k) as -> by (destruct Hh; congruence).
    simpl in Ex, Ed. rewrite Hd in Ex, Ed. simpl in Ex, Ed.
    split; [by rewrite run_future_length|]. rewrite Ex, Ed.
    split; [right; by apply list_lookup_insert_eq|]. split; [done|].
    intros j' t' Hne'. rewrite list_lookup_insert_ne by done. by apply Hq.
  - assert (~ writes_to (names (disk s)) k t) as Hw by by eapply Hq.
    split; [by rewrite run_future_length|]. rewrite Ex, Ed.
    split; [by rewrite list_lookup_insert_ne|].
    split; [by rewrite run_task_keeps|]. rewrite run_task_names.
    intros j' t' Hne'. destruct (decide (j' = j)) as [->|Hne2].
    + by rewrite list_lookup_insert_eq.
    + rewrite list_lookup_insert_ne by done. by apply Hq.
Qed.

Lemma run_all_load_pending k e h ks s :
  load_pending k e h s -> load_pending k e h (run_all ks s).
Proof.
  revert s. induction ks as [|j ks IH]; intros s H; [done|].
  unfold run_all in *. cbn [foldl]. by apply IH, run_future_load_pending.
Qed.

Lemma worker_steps_load_pending k e h n s :
  load_pending k e h s -> load_pending k e h (Nat.iter n worker_step s).
Proof.
  intros H. induction n as [|n IH]; [done|]. simpl. unfold worker_step.
  destruct (first_queued _); [by apply run_future_load_pending|done].
Qed.

Lemma future_result_load k e h s :
  load_pending k e h s ->
  exists s1, future_result h s = (Ret (VTuple e), s1)
    /\ book s1 = book s
    /\ disk s1 !! k = Some e.
Proof.
  intros H. unfold future_result.
  set (s1 := if is_done h s then s else await h s).
  assert (load_pending k e h s1 /\ is_done h s1 = true /\ book s1 = book s)
    as ((_ & Hh & Hd & _) & Hdone & Hb).
  { unfold s1. destruct (is_done h s) eqn:E; [done|]. split; [|split].
    - rewrite await_unfold. by apply run_future_load_pending, run_all_load_pending.
    - destruct H as (_ & [Hq|Hq] & _).
      + by eapply is_done_await_self.
      + unfold is_done in E. by rewrite Hq in E.
    - apply await_book. }
  destruct Hh as [Hq|Hq].
  - unfold is_done in Hdone. by rewrite Hq in Hdone.
  - rewrite Hq. eauto.
Qed.

Lemma reserve_room limit s :
  Z.of_nat (length (memory_cache s)) < limit -> reserve limit s = (Ret tt, s).
Proof.
  intros H. unfold reserve. cbn [reserve_loop].
  by destruct (Z.leb_spec limit (Z.of_nat (length (memory_cache s)))); [lia|].
Qed.

Lemma swap_in_background_submits k s :
  2 <= max_memory s ->
  Dict.mem k (memory_cache s) = false ->
  Dict.get k (pending_ops s) = None ->
  exists out s2, evicted out (accessed k s) s2
    /\ Z.of_nat (length (memory_cache s2)) < max_memory s - 1
    /\ swap_in k true s = (Ret None, load_submitted k s2).
Proof.
  intros Hmax Hm Hp. unfold swap_in. unfold_steps. rewrite Hp.
  destruct (swap_in_fetch k true s) as [o s'] eqn:E.
  apply swap_in_fetch_background in E
    as [(? & _)|(_ & out & s2 & Hev & [(_ & ? & _)|(Hlt & -> & ->)])];
    [congruence|lia|eauto].
Qed.

Lemma load_submitted_pending k e s out s2 :
  (forall k', k' ∈ Dict.keys (memory_cache s) ->
     names (disk s) k' ≠ names (disk s) k) ->
  first_queued (executor s) = None ->
  disk s !! k = Some e ->
  evicted out (accessed k s) s2 ->
  load_pending k e (length (executor s2)) (load_submitted k s2).
Proof.
  intros Hm Hq Hd Hev.
  assert (forall k', k' ∈ Dict.keys out ->
            names (disk s) k' ≠ names (disk s) k) as Hout.
  { intros k' Hin. apply Hm.
    pose proof (ev_cache _ _ _ Hev) as Hc. simpl in Hc.
    rewrite Hc, DictFacts.keys_app, elem_of_app. by left. }
  pose proof (ev_executor _ _ _ Hev) as Hx. simpl in Hx.
  split; [simpl; rewrite length_app; simpl; lia|]. simpl.
  split; [left; by apply list_lookup_middle|].
  split; [by rewrite (ev_disk _ _ _ Hev)|].
  rewrite (ev_disk _ _ _ Hev). simpl.
  intros j t Hj Hl Hw.
  assert (j < length (executor s2))%nat as Hlt.
  { apply lookup_lt_Some in Hl. rewrite length_app in Hl. simpl in Hl. lia. }
  rewrite lookup_app_l in Hl by done. rewrite Hx in Hl.
  destruct (decide (j < length (executor s))%nat) as [Hlo|Hhi].
  - rewrite lookup_app_l in Hl by done. by eapply first_queued_None.
  - rewrite lookup_app_r in Hl by lia.
    apply list_lookup_fmap_Some in Hl as ([k' v'] & Hkv & Hf).
    injection Hkv as ->. simpl in Hw.
    destruct v' as [e'|]; [|done]. apply (Hout k'); [|done].
    apply list_elem_of_fmap. exists (k', VTuple e'). split; [done|].
    by eapply list_elem_of_lookup_2.
Qed.

(** Two ids whose paths denote one file share its record: with [./A]
    resident and [A.pt] on disk, the background [swap_in] of [A] evicts
    [./A], whose save is queued ahead of the load and overwrites the
    file, so [get_expert] returns the payloads that [./A] had. *)
Lemma background_load_after_alias_save :
  let s := (register_expert "./A" (gate eB) (up eB) (down eB) (metadata eB)
              false (init 2 2 store)).2 in
  names (disk s) "./A" = names (disk s) "A"
  /\ disk s !! "A" = Some eA
  /\ (swap_in "A" true s).1 = Ret None
  /\ (get_expert "A" None (Nat.iter 2 worker_step (swap_in "A" true s).2)).1
     = Ret (gate eB, up eB, down eB).
Proof. repeat split; vm_compute; reflexivity. Qed.

(** X13.  Background round trip.  With room for two experts, no task
    waiting, the record of a non-resident id on disk, and no resident id
    whose path denotes the same file: a background [swap_in] returns
    [None]; afterwards, however far the worker has got, [get_expert]
    returns the payloads of the record on disk and the id is resident as
    the most recently used key.  The one exception is a call with a
    timeout that expires while the load has not run: it raises
    [TimeoutError] and leaves the state as it is. *)
Theorem background_load_then_get_expert k e n t s :
  2 <= max_memory s ->
  Dict.mem k (memory_cache s) = false ->
  (forall k', k' ∈ Dict.keys (memory_cache s) ->
     names (disk s) k' ≠ names (disk s) k) ->
  Dict.get k (pending_ops s) = None ->
  first_queued (executor s) = None ->
  disk s !! k = Some e ->
  (swap_in k true s).1 = Ret None
  /\ forall s1 o s',
       s1 = Nat.iter n worker_step (swap_in k true s).2 ->
       get_expert k t s1 = (o, s') ->
       o = Ret (gate e, up e, down e)
       /\ Dict.get k (memory_cache s') = Some (VTuple e)
       /\ last (Dict.keys (memory_cache s')) = Some k
       \/ t = Some false /\ o = Raise TimeoutError /\ s' = s1.
Proof.
  intros Hmax Hm Hfile Hp Hq Hd.
  destruct (swap_in_background_submits k s) as (out & s2 & Hev & _ & Hsw);
    [lia|done|done|].
  rewrite Hsw. split; [done|]. simpl. intros s1 o s' -> Hget.
  pose proof (load_submitted_pending _ _ _ _ _ Hfile Hq Hd Hev) as Hl.
  apply (worker_steps_load_pending _ _ _ n) in Hl.
  destruct (book_shelf _ _ (worker_steps_book n (load_submitted k s2)))
    as [Hs Hpe].
  set (h := length (executor s2)) in *.
  set (s1 := Nat.iter n worker_step (load_submitted k s2)) in *.
  destruct (evicted_fresh _ _ _ k Hev Hm) as [_ Hfresh].
  assert (memory_cache s1 = memory_cache s2 /\ max_memory s1 = max_memory s)
    as [Hc1 Hm1].
  { pose proof (ev_max _ _ _ Hev) as Hmx. simpl in Hmx.
    unfold shelf in Hs. simpl in Hs. split; congruence. }
  assert (Dict.get k (memory_cache s1) = None) as Hf1 by by rewrite Hc1.
  assert (Dict.get k (pending_ops s1) = Some h) as Hp1.
  { rewrite Hpe. simpl. apply DictFacts.get_set_eq. }
  assert (forall o s',
    take_future k h s1 = (o, s') ->
    o = Ret (gate e, up e, down e)
    /\ Dict.get k (memory_cache s') = Some (VTuple e)
    /\ last (Dict.keys (memory_cache s')) = Some k) as Htake.
  { intros o1 s3. unfold take_future. unfold_steps.
    destruct (future_result_load _ _ _ _ Hl) as (s4 & -> & Hb & _).
    apply book_shelf in Hb as [Hb _].
    assert (memory_cache s4 = memory_cache s1) as Hc4
      by (unfold shelf in Hb; congruence).
    fields. rewrite Hc4.
    assert (Dict.mem k (memory_cache s1) = false) as ->
      by by apply DictFacts.mem_false.
    cbv beta. fields. intros [= <- <-]. simpl.
    rewrite (DictFacts.set_fresh _ _ _ Hf1). split; [done|]. split.
    - rewrite DictFacts.get_app_fresh, Hf1. by rewrite String.eqb_refl.
    - rewrite DictFacts.keys_app. apply last_snoc. }
  assert (forall o s',
    (r <- swap_in k false ;;
     match r with
     | Some data => slice3 data
     | None => raise TypeError
     end) s1 = (o, s') ->
    is_done h s1 = false ->
    o = Ret (gate e, up e, down e)
    /\ Dict.get k (memory_cache s') = Some (VTuple e)
    /\ last (Dict.keys (memory_cache s')) = Some k) as Hfall.
  { intros o1 s3 H Hnd. unfold swap_in in H. unfold_steps.
    rewrite Hp1, Hnd in H. cbn [negb] in H.
    destruct (future_result_load _ _ _ _ Hl) as (s4 & E4 & Hb & Hd4).
    rewrite E4 in H. apply book_shelf in Hb as [Hb _].
    assert (memory_cache s4 = memory_cache s1 /\ max_memory s4 = max_memory s1)
      as [Hc4 Hm4] by (unfold shelf in Hb; split; congruence).
    destruct (swap_in_fetch_loads k e s4) as [s5 E5];
      [lia|congruence|done|].
    rewrite E5 in H. simpl in H. injection H as <- <-.
    split; [done|]. by eapply swap_in_fetch_sync_resident. }
  unfold get_expert in Hget. cbv zeta in Hget. unfold bind at 1 in Hget.
  unfold gets at 1 in Hget.
  assert (Dict.mem k (memory_cache s1) = false) as Hmem
    by by apply DictFacts.mem_false.
  rewrite Hmem in Hget.
  unfold bind at 1 in Hget. unfold gets at 1 in Hget. rewrite Hp1 in Hget.
  unfold bind at 1 in Hget. unfold future_done, gets in Hget.
  destruct (is_done h s1) eqn:Hdone.
  - left. by apply Htake.
  - destruct t as [[|]|].
    + left. by apply Htake.
    + right. injection Hget as <- <-. done.
    + left. by apply Hfall.
Qed.

(** X14.  Single flight: once a background [swap_in] has submitted the
    load of an id, a second background [swap_in] of that id before the
    load has run submits nothing and changes nothing. *)
Theorem swap_in_background_twice k s :
  2 <= max_memory s ->
  Dict.mem k (memory_cache s) = false ->
  Dict.get k (pending_ops s) = None ->
  swap_in k true (swap_in k true s).2 = (Ret None, (swap_in k true s).2).
Proof.
  intros Hmax Hm Hp.
  destruct (swap_in_background_submits k s Hmax Hm Hp)
    as (out & s2 & _ & _ & ->). simpl.
  unfold swap_in. unfold_steps. simpl.
  rewrite DictFacts.get_set_eq.
  assert (is_done (length (executor s2)) (load_submitted k s2) = false) as ->.
  { unfold is_done. simpl. by rewrite list_lookup_middle. }
  done.
Qed.

Lemma run_all_nothing_queued ks s :
  (forall j t, j ∈ ks -> executor s !! j ≠ Some (Future t None)) ->
  run_all ks s = s.
Proof.
  induction ks as [|j ks IH]; intros H; [done|].
  unfold run_all in *. cbn [foldl].
  rewrite run_future_skip; [|intros t; apply H; left].
  apply IH. intros j' t Hj'. apply H. by right.
Qed.

(** X15.  A failed background load is reported once.  With room in the
    cache, nothing pending and no task waiting, a background [swap_in]
    of an id that has no file returns [None]; the first [flush] after it
    raises the load's [FileNotFoundError] and keeps the entry in the
    pending table; the next [flush] returns normally and drops it. *)
Theorem failed_background_load_surfaces_once k s :
  Z.of_nat (length (memory_cache s)) < max_memory s - 1 ->
  Dict.mem k (memory_cache s) = false ->
  pending_ops s = [] ->
  first_queued (executor s) = None ->
  disk s !! k = None ->
  (swap_in k true s).1 = Ret None
  /\ (flush (swap_in k true s).2).1 = Raise FileNotFoundError
  /\ pending_ops (flush (swap_in k true s).2).2 = [(k, length (executor s))]
  /\ flush (flush (swap_in k true s).2).2
     = (Ret tt, set_pending_ops [] (flush (swap_in k true s).2).2).
Proof.
  intros Hroom Hm Hp Hq Hd.
  assert (swap_in k true s = (Ret None, load_submitted k (accessed k s))) as ->.
  { unfold swap_in, swap_in_fetch. unfold_steps. rewrite Hp. simpl.
    rewrite Hm. cbv beta. fields.
    rewrite reserve_room by (simpl; lia). done. }
  cbn [fst snd].
  set (s1 := load_submitted k (accessed k s)).
  set (h := length (executor s)).
  assert (executor s1 !! h = Some (Future (LoadTask k) None)) as Hh
    by (simpl; by apply list_lookup_middle).
  assert (run_all (seq 0 h) s1 = s1) as Hrun.
  { apply run_all_nothing_queued. intros j t Hj%elem_of_seq. simpl.
    rewrite lookup_app_l by (unfold h in Hj; lia). by apply first_queued_None. }
  destruct (await_queued _ _ _ Hh) as [Ex Ed]. rewrite Hrun in Ex, Ed.
  simpl in Ex, Ed. rewrite Hd in Ex, Ed. simpl in Ex, Ed.
  assert (future_result h s1 = (Raise FileNotFoundError, await h s1)) as Hres.
  { unfold future_result.
    assert (is_done h s1 = false) as -> by (unfold is_done; by rewrite Hh).
    by rewrite Ex. }
  assert (pending_ops s1 = [(k, h)]) as Hp1 by (simpl; by rewrite Hp).
  assert (flush s1 = (Raise FileNotFoundError, await h s1)) as Hflush.
  { unfold flush. unfold_steps. rewrite Hp1. simpl. unfold flush_one.
    unfold_steps. rewrite Hp1. simpl. rewrite String.eqb_refl.
    assert (is_done h s1 = false) as -> by (unfold is_done; by rewrite Hh).
    by rewrite Hres. }
  rewrite Hflush. simpl.
  destruct (book_shelf _ _ (await_book h s1)) as [_ Hp2].
  split; [done|]. split; [done|]. split; [by rewrite Hp2|].
  unfold flush, bind, gets. rewrite Hp2, Hp1.
  rewrite flush_keys_all_done.
  - rewrite Hp2, Hp1. simpl. by rewrite String.eqb_refl.
  - apply NoDup_singleton.
  - intros k' ->%list_elem_of_singleton. exists h. rewrite Hp2, Hp1. simpl.
    rewrite String.eqb_refl. split; [done|]. unfold is_done. by rewrite Ex.
Qed.

(** ** A cold [get_expert] *)



(** ** A queued save against a later write *)


(** ** Background [swap_in] hands out no data *)

(** X18.  In no state does a background [swap_in] return a record: it
    returns [None], or, only when the capacity is at most 1, it does not
    return; with capacity 2 or more it always returns [None]. *)
Theorem swap_in_background_never_yields_data k s :
  ((swap_in k true s).1 = Ret None
   \/ (swap_in k true s).1 = Hang /\ max_memory s <= 1)
  /\ (2 <= max_memory s -> (swap_in k true s).1 = Ret None).
Proof.
  split; [apply swap_in_background_outcome|].
  intros H. destruct (swap_in_background_outcome k s) as [|[_ ?]]; [done|lia].
Qed.

(** ** Instances of the further properties *)

Lemma swap_in_sync_returns_resident_witness :
  swap_in "X" false s_swapped_out
    = (Ret (Some (VTuple eA)), (swap_in "X" false s_swapped_out).2)
  /\ Ret (Some (VTuple eA)) ≠ Ret None
  /\ forall v, Ret (Some (VTuple eA)) = Ret (Some v) ->
       Dict.get "X" (memory_cache (swap_in "X" false s_swapped_out).2) = Some v
       /\ last (Dict.keys (memory_cache (swap_in "X" false s_swapped_out).2))
          = Some "X".
Proof.
  assert (swap_in "X" false s_swapped_out
          = (Ret (Some (VTuple eA)), (swap_in "X" false s_swapped_out).2)) as H
    by (vm_compute; reflexivity).
  split; [exact H|].
  exact (swap_in_sync_returns_resident "X" s_swapped_out _ _ H).
Defined.

Lemma swap_in_sync_restores_capacity_witness :
  Dict.mem "A" (memory_cache s_crowded) = false
  /\ swap_in "A" false s_crowded
     = (Ret (Some (VTuple eA)), (swap_in "A" false s_crowded).2)
  /\ within_capacity (swap_in "A" false s_crowded).2.
Proof.
  assert (Dict.mem "A" (memory_cache s_crowded) = false) as H1
    by (vm_compute; reflexivity).
  assert (swap_in "A" false s_crowded
          = (Ret (Some (VTuple eA)), (swap_in "A" false s_crowded).2)) as H2
    by (vm_compute; reflexivity).
  split; [exact H1|]. split; [exact H2|].
  exact (swap_in_sync_restores_capacity "A" s_crowded _ _ H1 H2).
Defined.

Lemma capacity_kept_without_register_and_get_witness :
  0 <= 2
  /\ forallb makes_room
       [SwapIn "A" false; SwapIn "B" false; SwapIn "C" false] = true
  /\ run [SwapIn "A" false; SwapIn "B" false; SwapIn "C" false]
       (init 2 2 store) = Some s_evicted
  /\ within_capacity s_evicted.
Proof.
  assert (0 <= 2) as H1 by lia.
  assert (forallb makes_room
            [SwapIn "A" false; SwapIn "B" false; SwapIn "C" false] = true) as H2
    by reflexivity.
  assert (run [SwapIn "A" false; SwapIn "B" false; SwapIn "C" false]
            (init 2 2 store) = Some s_evicted) as H3
    by (vm_compute; reflexivity).
  split; [exact H1|]. split; [exact H2|]. split; [exact H3|].
  exact (capacity_kept_without_register_and_get _ 2 2 store s_evicted H1 H2 H3).
Defined.

Lemma unregister_expert_twice_witness :
  unregister_expert "X" s_swapped_out
    = (Ret tt, (unregister_expert "X" s_swapped_out).2)
  /\ unregister_expert "X" (unregister_expert "X" s_swapped_out).2
     = (Ret tt, (unregister_expert "X" s_swapped_out).2).
Proof.
  assert (unregister_expert "X" s_swapped_out
          = (Ret tt, (unregister_expert "X" s_swapped_out).2)) as H
    by (vm_compute; reflexivity).
  split; [exact H|].
  exact (unregister_expert_twice "X" s_swapped_out _ H).
Defined.


Lemma access_pattern_bounded_witness :
  run [SwapIn "A" false; SwapIn "B" false; SwapIn "C" false] (init 2 2 store)
    = Some s_evicted
  /\ access_bounded s_evicted.
Proof.
  assert (run [SwapIn "A" false; SwapIn "B" false; SwapIn "C" false]
            (init 2 2 store) = Some s_evicted) as H
    by (vm_compute; reflexivity).
  split; [exact H|].
  exact (access_pattern_bounded _ 2 2 store s_evicted H).
Defined.

Lemma flush_waits_for_pending_witness :
  flush s_evicted = (Ret tt, (flush s_evicted).2)
  /\ Dict.get "A" (pending_ops s_evicted) = Some 0%nat
  /\ is_done 0 (flush s_evicted).2 = true.
Proof.
  assert (flush s_evicted = (Ret tt, (flush s_evicted).2)) as H1
    by (vm_compute; reflexivity).
  assert (Dict.get "A" (pending_ops s_evicted) = Some 0%nat) as H2
    by (vm_compute; reflexivity).
  split; [exact H1|]. split; [exact H2|].
  exact (flush_waits_for_pending s_evicted _ "A" 0%nat H1 H2).
Defined.

Lemma flush_drops_finished_futures_witness :
  NoDup (Dict.keys (pending_ops (worker_step s_evicted)))
  /\ (forall k h, Dict.get k (pending_ops (worker_step s_evicted)) = Some h ->
        is_done h (worker_step s_evicted) = true)
  /\ flush (worker_step s_evicted)
     = (Ret tt, set_pending_ops [] (worker_step s_evicted)).
Proof.
  assert (pending_ops (worker_step s_evicted) = [("A", 0%nat)]) as E
    by (vm_compute; reflexivity).
  assert (NoDup (Dict.keys (pending_ops (worker_step s_evicted)))) as H1.
  { rewrite E. apply NoDup_singleton. }
  assert (forall k h, Dict.get k (pending_ops (worker_step s_evicted)) = Some h ->
            is_done h (worker_step s_evicted) = true) as H2.
  { intros k h. rewrite E. simpl. destruct (String.eqb k "A"); [|done].
    intros [= <-]. vm_compute. reflexivity. }
  split; [exact H1|]. split; [exact H2|].
  exact (flush_drops_finished_futures (worker_step s_evicted) H1 H2).
Defined.



Lemma background_load_then_get_expert_witness :
  2 <= max_memory s_two
  /\ Dict.mem "C" (memory_cache s_two) = false
  /\ (forall k', k' ∈ Dict.keys (memory_cache s_two) ->
        names (disk s_two) k' ≠ names (disk s_two) "C")
  /\ Dict.get "C" (pending_ops s_two) = None
  /\ first_queued (executor s_two) = None
  /\ disk s_two !! "C" = Some eC
  /\ (swap_in "C" true s_two).1 = Ret None
  /\ forall s1 o s',
       s1 = Nat.iter 1 worker_step (swap_in "C" true s_two).2 ->
       get_expert "C" None s1 = (o, s') ->
       o = Ret (gate eC, up eC, down eC)
       /\ Dict.get "C" (memory_cache s') = Some (VTuple eC)
       /\ last (Dict.keys (memory_cache s')) = Some "C"
       \/ None = Some false /\ o = Raise TimeoutError /\ s' = s1.
Proof.
  assert (2 <= max_memory s_two) as H1 by (vm_compute; discriminate).
  assert (Dict.mem "C" (memory_cache s_two) = false) as H2
    by (vm_compute; reflexivity).
  assert (forall k', k' ∈ Dict.keys (memory_cache s_two) ->
            names (disk s_two) k' ≠ names (disk s_two) "C") as H3.
  { assert (Dict.keys (memory_cache s_two) = ["A"; "B"]) as ->
      by (vm_compute; reflexivity).
    intros k' [->|[->|Hin%elem_of_nil]%elem_of_cons]%elem_of_cons;
      [vm_compute; discriminate|vm_compute; discriminate|done]. }
  assert (Dict.get "C" (pending_ops s_two) = None) as H4
    by (vm_compute; reflexivity).
  assert (first_queued (executor s_two) = None) as H5
    by (vm_compute; reflexivity).
  assert (disk s_two !! "C" = Some eC) as H6 by (vm_compute; reflexivity).
  split; [exact H1|]. split; [exact H2|]. split; [exact H3|].
  split; [exact H4|]. split; [exact H5|]. split; [exact H6|].
  exact (background_load_then_get_expert "C" eC 1 None s_two
           H1 H2 H3 H4 H5 H6).
Defined.

Lemma swap_in_background_twice_witness :
  2 <= max_memory (init 8 2 store)
  /\ Dict.mem "A" (memory_cache (init 8 2 store)) = false
  /\ Dict.get "A" (pending_ops (init 8 2 store)) = None
  /\ swap_in "A" true (swap_in "A" true (init 8 2 store)).2
     = (Ret None, (swap_in "A" true (init 8 2 store)).2).
Proof.
  assert (2 <= max_memory (init 8 2 store)) as H1 by (simpl; lia).
  assert (Dict.mem "A" (memory_cache (init 8 2 store)) = false) as H2
    by reflexivity.
  assert (Dict.get "A" (pending_ops (init 8 2 store)) = None) as H3
    by reflexivity.
  split; [exact H1|]. split; [exact H2|]. split; [exact H3|].
  exact (swap_in_background_twice "A" (init 8 2 store) H1 H2 H3).
Defined.

Lemma failed_background_load_surfaces_once_witness :
  Z.of_nat (length (memory_cache (init 8 2 ∅))) < max_memory (init 8 2 ∅) - 1
  /\ Dict.mem "A" (memory_cache (init 8 2 ∅)) = false
  /\ pending_ops (init 8 2 ∅) = []
  /\ first_queued (executor (init 8 2 ∅)) = None
  /\ disk (init 8 2 ∅) !! "A" = None
  /\ (swap_in "A" true (init 8 2 ∅)).1 = Ret None
  /\ (flush (swap_in "A" true (init 8 2 ∅)).2).1 = Raise FileNotFoundError
  /\ pending_ops (flush (swap_in "A" true (init 8 2 ∅)).2).2
     = [("A", length (executor (init 8 2 ∅)))]
  /\ flush (flush (swap_in "A" true (init 8 2 ∅)).2).2
     = (Ret tt, set_pending_ops [] (flush (swap_in "A" true (init 8 2 ∅)).2).2).
Proof.
  assert (Z.of_nat (length (memory_cache (init 8 2 ∅)))
          < max_memory (init 8 2 ∅) - 1) as H1 by (simpl; lia).
  assert (Dict.mem "A" (memory_cache (init 8 2 ∅)) = false) as H2 by reflexivity.
  assert (pending_ops (init 8 2 ∅) = []) as H3 by reflexivity.
  assert (first_queued (executor (init 8 2 ∅)) = None) as H4 by reflexivity.
  assert (disk (init 8 2 ∅) !! "A" = None) as H5 by (vm_compute; reflexivity).
  split; [exact H1|]. split; [exact H2|]. split; [exact H3|].
  split; [exact H4|]. split; [exact H5|].
  exact (failed_background_load_surfaces_once "A" (init 8 2 ∅) H1 H2 H3 H4 H5).
Defined.



Lemma get_expert_takes_save_future_witness :
  Dict.mem "A" (memory_cache (worker_step s_evicted)) = false
  /\ Dict.get "A" (pending_ops (worker_step s_evicted)) = Some 0%nat
  /\ executor (worker_step s_evicted) !! 0%nat
     = Some (Future (SaveTask "A" (VTuple eA)) (Some (Done VTrue)))
  /\ (get_expert "A" None (worker_step s_evicted)).1 = Raise TypeError
  /\ memory_cache (get_expert "A" None (worker_step s_evicted)).2
     = memory_cache (worker_step s_evicted) ++ [("A", VTrue)]
  /\ Dict.get "A" (pending_ops (get_expert "A" None (worker_step s_evicted)).2)
     = None.
Proof.
  assert (Dict.mem "A" (memory_cache (worker_step s_evicted)) = false) as H1
    by (vm_compute; reflexivity).
  assert (Dict.get "A" (pending_ops (worker_step s_evicted)) = Some 0%nat) as H2
    by (vm_compute; reflexivity).
  assert (executor (worker_step s_evicted) !! 0%nat
          = Some (Future (SaveTask "A" (VTuple eA)) (Some (Done VTrue)))) as H3
    by (vm_compute; reflexivity).
  split; [exact H1|]. split; [exact H2|]. split; [exact H3|].
  exact (get_expert_takes_save_future (worker_step s_evicted) "A" 0%nat
           (VTuple eA) None H1 H2 H3).
Defined.
